(** * CircularBufferDelayAudioProcessor: the delay-buffer write path

    A shallow embedding of [PluginProcessor.cpp] / [PluginProcessor.h]:
    [prepareToPlay] sizes the delay buffer, [processBlock] copies every host
    block into it at [writePosition] and advances [writePosition].

    The JUCE operations the processor calls ([AudioBuffer::setSize],
    [clear], [getWritePointer], [copyFrom], [copyFromWithRamp] and
    [FloatVectorOperations]) are embedded next to it, following the JUCE
    sources and documentation. *)

From Stdlib Require Import ZArith Lia.
From Stdlib Require Import Floats.SpecFloat.
From stdpp Require Import base numbers list.

Local Open Scope Z_scope.

(** ** Machine integers *)

(** [int] is 32 bits wide.  Values are kept in [Z]; an arithmetic result is
    wrapped into the two's complement range, as the hardware does (C++
    leaves signed overflow undefined). *)
Module Int.

Definition min_signed : Z := - 2 ^ 31.
Definition max_signed : Z := 2 ^ 31 - 1.

Definition wrap (z : Z) : Z := (z + 2 ^ 31) `mod` 2 ^ 32 - 2 ^ 31.

Definition add (a b : Z) : Z := wrap (a + b).
Definition sub (a b : Z) : Z := wrap (a - b).

(** C++ [%] truncates toward zero, as [Z.rem] does.  A zero divisor traps on
    the hardware; [Z.rem a 0] is [a]. *)
Definition rem (a b : Z) : Z := Z.rem a b.

Definition in_range (z : Z) : Prop := min_signed <= z <= max_signed.

End Int.

(** ** Floating-point samples *)

(** [float] is IEEE-754 binary32, [double] is binary64; both are values of
    [spec_float] in canonical form. *)
Abbreviation float := spec_float (only parsing).
Abbreviation double := spec_float (only parsing).

#[global] Instance float_inhabited : Inhabited spec_float := populate (S754_zero false).

Module F32.
Definition prec : Z := 24.
Definition emax : Z := 128.
(** [0.0f], [1.0f] and [0.1f] (the nearest binary32 to one tenth,
    13421773 * 2^-27 = 0x3DCCCCCD). *)
Definition zero : float := S754_zero false.
Definition one : float := S754_finite false 8388608 (-23).
Definition tenth : float := S754_finite false 13421773 (-27).
Definition eqb : float -> float -> bool := SFeqb.
(** [(float) n] for an [int] n. *)
Definition of_int (n : Z) : float := binary_normalize prec emax n 0 false.
End F32.

Module F64.
Definition prec : Z := 53.
Definition emax : Z := 1024.
(** [2.0] *)
Definition two : double := S754_finite false 4503599627370496 (-51).
Definition mul : double -> double -> double := SFmul prec emax.
(** [(double) n] for an [int] n; every [int] is exact in binary64. *)
Definition of_int (n : Z) : double := binary_normalize prec emax n 0 false.
(** [(int) x]: the fractional part is discarded (truncation toward zero).
    A value outside the range of [int], an infinity or a NaN is undefined in
    C++; x86 returns the "integer indefinite" value [INT_MIN], which is what
    the model does. *)
Definition to_int (x : double) : Z :=
  match x with
  | S754_zero _ => 0
  | S754_finite s m e =>
      let mag := if 0 <=? e then Z.pos m * 2 ^ e else Z.pos m `quot` 2 ^ (- e) in
      let v := if s then - mag else mag in
      if (Int.min_signed <=? v) && (v <=? Int.max_signed) then v else Int.min_signed
  | _ => Int.min_signed
  end.
End F64.

(** What the C++ code leaves to the machine it runs on. *)
Class Platform := {
  (** single-precision arithmetic as the FPU performs it inside
      [processBlock], where [juce::ScopedNoDenormals] is active (denormal
      results are flushed to zero in a hardware-specific way) *)
  fmul : float -> float -> float;
  fadd : float -> float -> float;
  fsub : float -> float -> float;
  fdiv : float -> float -> float;
  (** [stray channel k]: the value a load returns at element offset [k]
      from the first sample of host channel [channel], when that address is
      outside the channel's samples.  The buffer does not own this memory;
      C++ gives such a load no meaning. *)
  stray : nat -> Z -> float;
  (** [uninit channel k]: the contents of sample memory fresh from
      [malloc]. *)
  uninit : nat -> nat -> float
}.

(** The IEEE-754 operations, and memory that reads as zero where nothing
    was stored: the platform the examples are evaluated on.  On values that
    are not denormal, flush-to-zero mode and IEEE arithmetic agree. *)
Definition ieee : Platform := {|
  fmul := SFmul F32.prec F32.emax;
  fadd := SFadd F32.prec F32.emax;
  fsub := SFsub F32.prec F32.emax;
  fdiv := SFdiv F32.prec F32.emax;
  stray := fun _ _ => F32.zero;
  uninit := fun _ _ => F32.zero
|}.

(** ** juce::AudioBuffer<float> *)

(** [size] is the number of samples per channel ([getNumSamples]); each
    element of [channels] is one channel's samples. *)
Record AudioBuffer := mkAudioBuffer {
  size : Z;
  channels : list (list float)
}.

Definition getNumSamples (b : AudioBuffer) : Z := size b.
Definition getNumChannels (b : AudioBuffer) : nat := length (channels b).

(** The length is a non-negative [int] and every channel holds exactly
    [size] samples. *)
Definition wf_buffer (b : AudioBuffer) : Prop :=
  0 <= size b <= Int.max_signed /\
  Forall (fun c => Z.of_nat (length c) = size b) (channels b).

(** A [float*] into host sample memory: [mem k] is what is stored [k] elements
    after the first sample of the channel the pointer was taken from, [pos]
    is where the pointer stands. *)
Record Ptr := mkPtr {
  mem : Z -> float;
  pos : Z
}.

Definition ptr_add (p : Ptr) (k : Z) : Ptr := mkPtr (mem p) (pos p + k).
Definition ptr_sub (p : Ptr) (k : Z) : Ptr := mkPtr (mem p) (pos p - k).
Definition load (p : Ptr) : float := mem p (pos p).

(** One memory access of a copy: a load from the source at an element offset
    from the start of the host channel, or a store to the destination
    channel at a sample index. *)
Inductive access :=
  | Load (i : Z)
  | Store (i : Z).

(** Loads stay in [lo_load, hi_load) and stores in [lo_store, hi_store). *)
Definition access_within (lo_load hi_load lo_store hi_store : Z) (a : access) : Prop :=
  match a with
  | Load i => lo_load <= i < hi_load
  | Store i => lo_store <= i < hi_store
  end.

(** Stores stay in [lo, hi); loads are not constrained. *)
Definition stores_within (lo hi : Z) (a : access) : Prop :=
  match a with
  | Load _ => True
  | Store i => lo <= i < hi
  end.

(** Loads stay in [lo, hi); stores are not constrained. *)
Definition loads_within (lo hi : Z) (a : access) : Prop :=
  match a with
  | Load i => lo <= i < hi
  | Store _ => True
  end.

(** [d[i] = v] on one channel's samples.  An index outside the channel is a
    write to memory the channel does not own: the channel is unchanged. *)
Definition store (d : list float) (i : Z) (v : float) : list float :=
  if 0 <=? i then <[Z.to_nat i := v]> d else d.

Definition set_channel (b : AudioBuffer) (channel : nat) (d : list float) : AudioBuffer :=
  mkAudioBuffer (size b) (<[channel := d]> (channels b)).

Section Processor.
Context {M : Platform}.

(** [buffer.getWritePointer (channel)]: a pointer to the channel's first
    sample.  (The [isClear] flag of the buffer is not modelled: it only lets
    [clear] skip work on a buffer that already holds zeros.) *)
Definition channel_memory (b : AudioBuffer) (channel : nat) (k : Z) : float :=
  if 0 <=? k then default (stray channel k) ((channels b !!! channel) !! Z.to_nat k)
  else stray channel k.

Definition getWritePointer (b : AudioBuffer) (channel : nat) : Ptr :=
  mkPtr (channel_memory b channel) 0.

(** *** FloatVectorOperations *)

(** The loop shared by [copy] and [copyWithMultiply]:
    [for (i = 0; i < num; ++i) dest[i] = f (src[i])]. *)
Fixpoint transfer (f : float -> float) (d : list float) (dest : Z) (src : Ptr)
    (num : nat) : list float * list access :=
  match num with
  | O => (d, [])
  | S num' =>
      let '(d', t) := transfer f (store d dest (f (load src))) (dest + 1) (ptr_add src 1) num' in
      (d', Load (pos src) :: Store dest :: t)
  end.

(** [FloatVectorOperations::copy (dest, src, num)] *)
Definition copy := transfer (fun x => x).

(** [FloatVectorOperations::copyWithMultiply (dest, src, multiplier, num)]:
    [dest[i] = src[i] * multiplier]. *)
Definition copyWithMultiply (d : list float) (dest : Z) (src : Ptr)
    (multiplier : float) (num : nat) : list float * list access :=
  transfer (fun x => fmul x multiplier) d dest src num.

(** [FloatVectorOperations::clear (dest, num)] *)
Fixpoint clear_samples (d : list float) (dest : Z) (num : nat) : list float * list access :=
  match num with
  | O => (d, [])
  | S num' =>
      let '(d', t) := clear_samples (store d dest F32.zero) (dest + 1) num' in
      (d', Store dest :: t)
  end.

(** *** AudioBuffer members *)

(** [clear (channel, startSample, numSamples)] *)
Definition clear (b : AudioBuffer) (channel : nat) (startSample numSamples : Z) : AudioBuffer :=
  set_channel b channel
    (fst (clear_samples (channels b !!! channel) startSample (Z.to_nat numSamples))).

(** [copyFrom (destChannel, destStartSample, source, numSamples, gain)] *)
Definition copyFrom (b : AudioBuffer) (destChannel : nat) (destStartSample : Z)
    (source : Ptr) (numSamples : Z) (gain : float) : AudioBuffer * list access :=
  if 0 <? numSamples then
    let d := channels b !!! destChannel in
    let n := Z.to_nat numSamples in
    let '(d', t) :=
      if negb (F32.eqb gain F32.one) then
        if F32.eqb gain F32.zero then clear_samples d destStartSample n
        else copyWithMultiply d destStartSample source gain n
      else copy d destStartSample source n in
    (set_channel b destChannel d', t)
  else (b, []).

(** The ramp loop of [copyFromWithRamp]:
    [while (--numSamples >= 0) { *d++ = startGain * *source++; startGain += increment; }] *)
Fixpoint ramp (d : list float) (dest : Z) (src : Ptr) (startGain increment : float)
    (num : nat) : list float * list access :=
  match num with
  | O => (d, [])
  | S num' =>
      let '(d', t) := ramp (store d dest (fmul startGain (load src))) (dest + 1)
                        (ptr_add src 1) (fadd startGain increment) increment num' in
      (d', Load (pos src) :: Store dest :: t)
  end.

(** [copyFromWithRamp (destChannel, destStartSample, source, numSamples,
    startGain, endGain)]: with equal gains it is [copyFrom] with that gain;
    otherwise the gain starts at [startGain] and grows by
    [(endGain - startGain) / numSamples] from one sample to the next. *)
Definition copyFromWithRamp (b : AudioBuffer) (destChannel : nat) (destStartSample : Z)
    (source : Ptr) (numSamples : Z) (startGain endGain : float) : AudioBuffer * list access :=
  if F32.eqb startGain endGain then
    copyFrom b destChannel destStartSample source numSamples startGain
  else if 0 <? numSamples then
    let increment := fdiv (fsub endGain startGain) (F32.of_int numSamples) in
    let '(d', t) := ramp (channels b !!! destChannel) destStartSample source
                      startGain increment (Z.to_nat numSamples) in
    (set_channel b destChannel d', t)
  else (b, []).

(** [setSize (newNumChannels, newNumSamples)] with the default flags
    (keepExistingContent, clearExtraSpace and avoidReallocating all false):
    when the channel count or the length changes the storage is allocated
    anew and left uninitialised; otherwise nothing happens.  ([setSize]
    zeroes new storage only for a buffer whose [isClear] flag is set; the
    processor never clears [delayBuffer], so its flag stays false.) *)
Definition setSize (b : AudioBuffer) (newNumChannels : nat) (newNumSamples : Z) : AudioBuffer :=
  if bool_decide (newNumSamples ≠ size b ∨ newNumChannels ≠ getNumChannels b) then
    mkAudioBuffer newNumSamples
      ((fun c => uninit c <$> seq 0 (Z.to_nat newNumSamples)) <$> seq 0 newNumChannels)
  else b.

(** ** The processor *)

(** The members of [CircularBufferDelayAudioProcessor], and the channel
    counts of its bus layout ([getTotalNumInputChannels],
    [getTotalNumOutputChannels]), which are never negative. *)
Record Processor := mkProcessor {
  totalNumInputChannels : nat;
  totalNumOutputChannels : nat;
  delayBuffer : AudioBuffer;
  writePosition : Z
}.

(** A processor as its constructor leaves it: an empty delay buffer and
    [writePosition { 0 }]. *)
Definition construct (numIn numOut : nat) : Processor :=
  mkProcessor numIn numOut (mkAudioBuffer 0 []) 0.

(** [prepareToPlay (sampleRate, samplesPerBlock)] *)
Definition prepareToPlay (p : Processor) (sampleRate : double) (samplesPerBlock : Z) : Processor :=
  let delayBufferSize := F64.mul sampleRate F64.two in
  mkProcessor (totalNumInputChannels p) (totalNumOutputChannels p)
    (setSize (delayBuffer p) (totalNumOutputChannels p) (F64.to_int delayBufferSize))
    (writePosition p).

(** The body of the channel loop of [processBlock]: copy the host channel
    into the delay buffer at [writePosition], in one piece or in two. *)
Definition write_channel (writePosition bufferSize delayBufferSize : Z)
    (buffer : AudioBuffer) (db : AudioBuffer) (channel : nat) : AudioBuffer * list access :=
  let channelData := getWritePointer buffer channel in
  if delayBufferSize >? Int.add bufferSize writePosition then
    copyFromWithRamp db channel writePosition channelData bufferSize F32.tenth F32.tenth
  else
    let numSamplesToEnd := Int.sub delayBufferSize writePosition in
    let '(db1, t1) := copyFromWithRamp db channel writePosition channelData
                        numSamplesToEnd F32.tenth F32.tenth in
    let numSamplesAtStart := Int.sub bufferSize numSamplesToEnd in
    let '(db2, t2) := copyFromWithRamp db1 channel 0 (ptr_sub channelData numSamplesToEnd)
                        numSamplesAtStart F32.tenth F32.tenth in
    (db2, t1 ++ t2).

(** What [write_channel] does to the samples [d] of its delay-buffer
    channel: with both gains [0.1f], [copyFromWithRamp] is [copyFrom] with
    gain [0.1f], which is [copyWithMultiply] (a count that is not positive
    copies nothing). *)
Definition write_samples (writePosition bufferSize delayBufferSize : Z)
    (channelData : Ptr) (d : list float) : list float * list access :=
  if delayBufferSize >? Int.add bufferSize writePosition then
    copyWithMultiply d writePosition channelData F32.tenth (Z.to_nat bufferSize)
  else
    let numSamplesToEnd := Int.sub delayBufferSize writePosition in
    let '(d1, t1) := copyWithMultiply d writePosition channelData F32.tenth
                       (Z.to_nat numSamplesToEnd) in
    let numSamplesAtStart := Int.sub bufferSize numSamplesToEnd in
    let '(d2, t2) := copyWithMultiply d1 0 (ptr_sub channelData numSamplesToEnd) F32.tenth
                       (Z.to_nat numSamplesAtStart) in
    (d2, t1 ++ t2).

(** One turn of [for (int channel = 0; channel < totalNumInputChannels;
    ++channel)]: the delay buffer so far and the accesses so far, then
    channel [channel]. *)
Definition channel_step (writePosition bufferSize delayBufferSize : Z) (buffer : AudioBuffer)
    (acc : AudioBuffer * list (nat * access)) (channel : nat) : AudioBuffer * list (nat * access) :=
  let '(db', t') := write_channel writePosition bufferSize delayBufferSize buffer acc.1 channel in
  (db', acc.2 ++ ((fun a => (channel, a)) <$> t')).

(** [for (auto i = totalNumInputChannels; i < totalNumOutputChannels; ++i)
    buffer.clear (i, 0, buffer.getNumSamples());] *)
Definition clear_extra_outputs (numIn numOut : nat) (buffer : AudioBuffer) : AudioBuffer :=
  foldl (fun b i => clear b i 0 (getNumSamples b)) buffer (seq numIn (numOut - numIn)).

(** What one call of [processBlock] leaves behind: the processor, the host
    buffer, and the accesses of the copies, each with its channel. *)
Record Outcome := mkOutcome {
  processor : Processor;
  output : AudioBuffer;
  trace : list (nat * access)
}.

(** [processBlock (buffer, midiMessages)]; the MIDI buffer is not used. *)
Definition processBlock (p : Processor) (buffer : AudioBuffer) : Outcome :=
  let totalNumInputChannels := totalNumInputChannels p in
  let totalNumOutputChannels := totalNumOutputChannels p in
  let buffer := clear_extra_outputs totalNumInputChannels totalNumOutputChannels buffer in
  let bufferSize := getNumSamples buffer in
  let delayBufferSize := getNumSamples (delayBuffer p) in
  let '(db, t) :=
    foldl (channel_step (writePosition p) bufferSize delayBufferSize buffer)
      (delayBuffer p, []) (seq 0 totalNumInputChannels) in
  let writePosition := Int.add (writePosition p) bufferSize in
  let writePosition := Int.rem writePosition delayBufferSize in
  mkOutcome (mkProcessor totalNumInputChannels totalNumOutputChannels db writePosition)
    buffer t.

(** Consecutive calls of [processBlock], one per host block: the processor
    after the last call, every processor state on the way, and the host
    buffers as the calls leave them. *)
Fixpoint process_stream (p : Processor) (blocks : list AudioBuffer)
    : Processor * list Processor * list AudioBuffer :=
  match blocks with
  | [] => (p, [], [])
  | b :: blocks' =>
      let o := processBlock p b in
      let '(q, states, outs) := process_stream (processor o) blocks' in
      (q, processor o :: states, output o :: outs)
  end.

End Processor.

(** The samples of one channel over a sequence of buffers, one after the
    other. *)
Definition stream (channel : nat) (buffers : list AudioBuffer) : list float :=
  concat ((fun b => channels b !!! channel) <$> buffers).

(** Sample [n] of channel [channel]. *)
Definition sample (b : AudioBuffer) (channel : nat) (n : nat) : option float :=
  channels b !! channel ≫= (.!! n).

(** The number of samples in a sequence of buffers. *)
Definition total_samples (buffers : list AudioBuffer) : Z :=
  foldr (fun b n => size b + n) 0 buffers.

(** The load offsets and the store indices of a trace, in order, and the
    accesses of one channel. *)
Definition loads_of (t : list access) : list Z :=
  omap (fun a => match a with Load i => Some i | Store _ => None end) t.

Definition stores_of (t : list access) : list Z :=
  omap (fun a => match a with Load _ => None | Store i => Some i end) t.

Definition channel_accesses (channel : nat) (t : list (nat * access)) : list access :=
  omap (fun ca => if decide (ca.1 = channel) then Some ca.2 else None) t.

(** ** Bus layouts *)

(** [juce::AudioChannelSet] keeps its channel types as a bit mask.  Of the
    [ChannelType] values only [left] = 1, [right] = 2 and [centre] = 3 occur
    here. *)
Module AudioChannelSet.

Definition t : Type := N.

Definition left : N := 1.
Definition right : N := 2.
Definition centre : N := 3.

(** [AudioChannelSet::disabled()], [mono()] and [stereo()] *)
Definition disabled : t := 0%N.
Definition mono : t := N.shiftl 1 centre.
Definition stereo : t := N.lor (N.shiftl 1 left) (N.shiftl 1 right).

Fixpoint count_bits (p : positive) : nat :=
  match p with
  | xH => 1
  | xO q => count_bits q
  | xI q => S (count_bits q)
  end.

(** [size()]: the number of channels, i.e. of bits set. *)
Definition size (s : t) : nat :=
  match s with
  | N0 => 0
  | Npos p => count_bits p
  end.

End AudioChannelSet.

(** [AudioProcessor::BusesLayout]: the channel sets of the input buses and
    of the output buses. *)
Record BusesLayout := mkBusesLayout {
  inputBuses : list AudioChannelSet.t;
  outputBuses : list AudioChannelSet.t
}.

(** [getChannelSet (isInput, busIndex)]: the set of that bus, the disabled
    set when there is no such bus; the main bus is bus 0. *)
Definition getChannelSet (buses : list AudioChannelSet.t) (busIndex : nat) : AudioChannelSet.t :=
  default AudioChannelSet.disabled (buses !! busIndex).

Definition getMainInputChannelSet (layouts : BusesLayout) : AudioChannelSet.t :=
  getChannelSet (inputBuses layouts) 0.

Definition getMainOutputChannelSet (layouts : BusesLayout) : AudioChannelSet.t :=
  getChannelSet (outputBuses layouts) 0.

(** The channels of all buses of one direction together: what
    [getTotalNumInputChannels] and [getTotalNumOutputChannels] report for a
    layout. *)
Definition total_channels (buses : list AudioChannelSet.t) : nat :=
  foldr (fun s n => (AudioChannelSet.size s + n)%nat) 0%nat buses.

(** [isBusesLayoutSupported (layouts)].  The two macros come from the
    project's generated plugin defines, which are not part of the sources;
    they are parameters. *)
Definition isBusesLayoutSupported (JucePlugin_IsMidiEffect JucePlugin_IsSynth : bool)
    (layouts : BusesLayout) : bool :=
  if JucePlugin_IsMidiEffect then true
  else
    if negb (getMainOutputChannelSet layouts =? AudioChannelSet.mono)%N
       && negb (getMainOutputChannelSet layouts =? AudioChannelSet.stereo)%N
    then false
    else
      if negb JucePlugin_IsSynth
         && negb (getMainOutputChannelSet layouts =? getMainInputChannelSet layouts)%N
      then false
      else true.

(** The layout the constructor declares when the plugin is neither a MIDI
    effect nor a synth: one stereo input bus and one stereo output bus. *)
Definition default_layout : BusesLayout :=
  mkBusesLayout [AudioChannelSet.stereo] [AudioChannelSet.stereo].

(** ** What the specification describes *)

(** A stream of [len] samples holding 1.0 at index [k] and 0.0 elsewhere. *)
Definition impulse (k len : nat) : list float :=
  (fun j => if decide (j = k) then F32.one else F32.zero) <$> seq 0 len.

(** The ring positions [w, w + n) modulo the capacity, read in order. *)
Definition ring_region (d : list float) (w : Z) (n : nat) : list float :=
  (fun k => d !!! Z.to_nat ((w + Z.of_nat k) `mod` Z.of_nat (length d))) <$> seq 0 n.

(** Read cursor of the specification:
    [(writeCursor - delayLength + capacity) mod capacity]. *)
Definition spec_readCursor (writeCursor delayLength capacity : Z) : Z :=
  (writeCursor - delayLength + capacity) `mod` capacity.

(** Output block of the specification:
    [output[n] = dryMix * input[n] + wetMix * delayed[n]], the delayed samples
    being the ring samples from the read cursor on. *)
Definition spec_output {M : Platform} (dryMix wetMix : float) (input ring : list float)
    (writeCursor delayLength : Z) : list float :=
  let readCursor := spec_readCursor writeCursor delayLength (Z.of_nat (length ring)) in
  zip_with (fun x y => fadd (fmul dryMix x) (fmul wetMix y))
    input (ring_region ring readCursor (length input)).

(** A configuration the specification calls invalid: the ring is empty, or
    shorter than the block size announced for it. *)
Definition spec_invalid_configuration (sampleRate : double) (samplesPerBlock : Z) : Prop :=
  let capacity := F64.to_int (F64.mul sampleRate F64.two) in
  capacity <= 0 \/ capacity < samplesPerBlock.

(** A faded write shows in the stored block: under a constant input the
    first stored sample, where a ramp-in starts, differs from the one in the
    middle of the block. *)
Definition spec_fade_applied (stored : list float) : Prop :=
  stored !! 0%nat ≠ stored !! (length stored `div` 2)%nat.

(** * Properties *)

(** ** Machine integers *)

Lemma wrap_in_range (z : Z) : Int.in_range z -> Int.wrap z = z.
Proof.
  unfold Int.in_range, Int.min_signed, Int.max_signed, Int.wrap. intros Hz.
  rewrite Z.mod_small; lia.
Qed.

(** ** Stores and the copy loops *)

Lemma length_store (d : list float) (i : Z) (v : float) :
  length (store d i v) = length d.
Proof. unfold store. destruct (0 <=? i); [apply length_insert | done]. Qed.

Lemma lookup_store (d : list float) (i : Z) (v : float) (j : nat) :
  store d i v !! j = if decide (i = Z.of_nat j) then (fun _ => v) <$> d !! j else d !! j.
Proof.
  unfold store. destruct (Z.leb_spec 0 i) as [Hi|Hi].
  - destruct (decide (i = Z.of_nat j)) as [->|Hne].
    + rewrite Nat2Z.id. destruct (d !! j) as [x|] eqn:Hj.
      * apply list_lookup_insert_eq. by eapply lookup_lt_Some.
      * rewrite list_insert_ge; [done | by apply lookup_ge_None].
    + apply list_lookup_insert_ne. lia.
  - rewrite decide_False; [done | lia].
Qed.

Section CopyLoops.
Context {M : Platform}.

Lemma transfer_length f d dest src num :
  length (transfer f d dest src num).1 = length d.
Proof.
  revert d dest src. induction num as [|num IH]; intros d dest src; simpl; [done|].
  specialize (IH (store d dest (f (load src))) (dest + 1) (ptr_add src 1)).
  destruct (transfer f _ _ _ num) as [d' t]. simpl in *.
  by rewrite IH, length_store.
Qed.

(** Sample [j] of the destination after the loop: inside the written range
    it is [f] of the source sample at the same distance from the start. *)
Lemma transfer_lookup f d dest src num (j : nat) :
  (transfer f d dest src num).1 !! j =
    if decide (dest <= Z.of_nat j < dest + Z.of_nat num)
    then (fun _ => f (mem src (pos src + (Z.of_nat j - dest)))) <$> d !! j
    else d !! j.
Proof.
  revert d dest src. induction num as [|num IH]; intros d dest src.
  - simpl. rewrite decide_False; [done | lia].
  - simpl. specialize (IH (store d dest (f (load src))) (dest + 1) (ptr_add src 1)).
    destruct (transfer f _ _ _ num) as [d' t]. simpl in *. rewrite IH, lookup_store.
    unfold load. repeat case_decide; try lia; subst; simpl.
    + destruct (d !! j); simpl; [|done]. do 3 f_equal. lia.
    + replace (pos src + (Z.of_nat j - Z.of_nat j)) with (pos src) by lia.
      by destruct (d !! j).
    + done.
Qed.

Lemma transfer_trace f d dest src num :
  Forall (access_within (pos src) (pos src + Z.of_nat num) dest (dest + Z.of_nat num))
    (transfer f d dest src num).2.
Proof.
  revert d dest src. induction num as [|num IH]; intros d dest src; simpl; [constructor|].
  specialize (IH (store d dest (f (load src))) (dest + 1) (ptr_add src 1)).
  destruct (transfer f _ _ _ num) as [d' t]. simpl in *.
  repeat constructor; try lia.
  eapply Forall_impl; [exact IH|]. intros [i|i]; simpl; lia.
Qed.

Lemma clear_samples_length d dest num :
  length (clear_samples d dest num).1 = length d.
Proof.
  revert d dest. induction num as [|num IH]; intros d dest; simpl; [done|].
  specialize (IH (store d dest F32.zero) (dest + 1)).
  destruct (clear_samples _ _ num) as [d' t]. simpl in *.
  by rewrite IH, length_store.
Qed.

Lemma clear_samples_lookup d dest num (j : nat) :
  (clear_samples d dest num).1 !! j =
    if decide (dest <= Z.of_nat j < dest + Z.of_nat num)
    then (fun _ => F32.zero) <$> d !! j
    else d !! j.
Proof.
  revert d dest. induction num as [|num IH]; intros d dest.
  - simpl. rewrite decide_False; [done | lia].
  - simpl. specialize (IH (store d dest F32.zero) (dest + 1)).
    destruct (clear_samples _ _ num) as [d' t]. simpl in *. rewrite IH, lookup_store.
    repeat case_decide; try lia; subst; simpl; by destruct (d !! j).
Qed.

Lemma ramp_length d dest src g inc num :
  length (ramp d dest src g inc num).1 = length d.
Proof.
  revert d dest src g. induction num as [|num IH]; intros d dest src g; simpl; [done|].
  specialize (IH (store d dest (fmul g (load src))) (dest + 1) (ptr_add src 1) (fadd g inc)).
  destruct (ramp _ _ _ _ _ num) as [d' t]. simpl in *.
  by rewrite IH, length_store.
Qed.

(** ** Buffers *)

Lemma lookup_set_channel b channel (F : list float -> list float) c :
  channels (set_channel b channel (F (channels b !!! channel))) !! c =
    if decide (channel = c) then F <$> channels b !! c else channels b !! c.
Proof.
  unfold set_channel; simpl. case_decide as Hc.
  - subst c. destruct (channels b !! channel) as [d|] eqn:Hd; simpl.
    + rewrite (list_lookup_total_correct _ _ _ Hd).
      apply list_lookup_insert_eq. by eapply lookup_lt_Some.
    + apply lookup_ge_None in Hd as Hge. by rewrite list_insert_ge.
  - by apply list_lookup_insert_ne.
Qed.

Lemma set_channel_id b channel :
  set_channel b channel (channels b !!! channel) = b.
Proof.
  destruct b as [n chs]. unfold set_channel; simpl. f_equal.
  destruct (chs !! channel) as [d|] eqn:Hd.
  - rewrite (list_lookup_total_correct _ _ _ Hd). by apply list_insert_id.
  - apply list_insert_ge. by apply lookup_ge_None.
Qed.

Lemma set_channel_twice b channel d1 d2 :
  set_channel (set_channel b channel d1) channel d2 = set_channel b channel d2.
Proof. unfold set_channel; simpl. by rewrite list_insert_insert_eq. Qed.

(** The channel just set reads back, up to the case of a channel the buffer
    does not have, where both sides are empty. *)
Lemma set_channel_total b channel d :
  length d = length (channels b !!! channel) ->
  channels (set_channel b channel d) !!! channel = d.
Proof.
  intros Hlen. unfold set_channel; simpl.
  destruct (decide (channel < length (channels b))%nat) as [Hlt|Hge].
  - by apply list_lookup_total_insert_eq.
  - rewrite list_insert_ge by lia.
    rewrite list_lookup_total_alt in *.
    rewrite (lookup_ge_None_2 (channels b) channel) in * by lia. simpl in *.
    by destruct d.
Qed.

(** With both gains [0.1f] the ramped copy is a multiplication of every
    sample by [0.1f]. *)
Lemma copyFromWithRamp_tenth b channel start src n :
  copyFromWithRamp b channel start src n F32.tenth F32.tenth =
    let r := copyWithMultiply (channels b !!! channel) start src F32.tenth (Z.to_nat n) in
    (set_channel b channel r.1, r.2).
Proof.
  unfold copyFromWithRamp, copyFrom.
  change (F32.eqb F32.tenth F32.tenth) with true.
  change (F32.eqb F32.tenth F32.one) with false.
  change (F32.eqb F32.tenth F32.zero) with false. simpl.
  destruct (Z.ltb_spec 0 n) as [Hn|Hn].
  - by destruct (copyWithMultiply _ _ _ _ _).
  - replace (Z.to_nat n) with 0%nat by lia. simpl. by rewrite set_channel_id.
Qed.

Lemma write_channel_samples w bs cap buffer db channel :
  write_channel w bs cap buffer db channel =
    let r := write_samples w bs cap (getWritePointer buffer channel) (channels db !!! channel) in
    (set_channel db channel r.1, r.2).
Proof.
  unfold write_channel, write_samples. destruct (_ >? _).
  - apply copyFromWithRamp_tenth.
  - rewrite copyFromWithRamp_tenth. cbv beta iota zeta.
    rewrite copyFromWithRamp_tenth. cbv beta iota zeta.
    rewrite set_channel_total by apply transfer_length.
    destruct (copyWithMultiply (channels db !!! channel) _ _ _ _) as [d1 t1]; simpl.
    destruct (copyWithMultiply d1 _ _ _ _) as [d2 t2]; simpl.
    by rewrite set_channel_twice.
Qed.

End CopyLoops.

(** ** The loops of processBlock *)

Section ProcessBlock.
Context {M : Platform}.

Lemma clear_loop_size (l : list nat) (b : AudioBuffer) :
  size (foldl (fun b i => clear b i 0 (getNumSamples b)) b l) = size b.
Proof. revert b. induction l as [|i l IH]; intros b; simpl; [done|]. by rewrite IH. Qed.

Lemma clear_loop_lookup (len s : nat) (b : AudioBuffer) (c : nat) :
  channels (foldl (fun b i => clear b i 0 (getNumSamples b)) b (seq s len)) !! c =
    if decide (s <= c < s + len)%nat
    then (fun d => (clear_samples d 0 (Z.to_nat (size b))).1) <$> channels b !! c
    else channels b !! c.
Proof.
  revert s b. induction len as [|len IH]; intros s b; simpl.
  - rewrite decide_False; [done | lia].
  - rewrite IH. change (size (clear b s 0 (getNumSamples b))) with (size b).
    unfold clear, getNumSamples.
    rewrite (lookup_set_channel b s (fun d => (clear_samples d 0 (Z.to_nat (size b))).1) c).
    repeat case_decide; try lia; done.
Qed.

Lemma clear_extra_outputs_size numIn numOut b :
  size (clear_extra_outputs numIn numOut b) = size b.
Proof. apply clear_loop_size. Qed.

Lemma clear_extra_outputs_lookup numIn numOut b c :
  channels (clear_extra_outputs numIn numOut b) !! c =
    if decide (numIn <= c < numOut)%nat
    then (fun d => (clear_samples d 0 (Z.to_nat (size b))).1) <$> channels b !! c
    else channels b !! c.
Proof.
  unfold clear_extra_outputs. rewrite clear_loop_lookup.
  repeat case_decide; try lia; done.
Qed.

(** The input channels of the host buffer are the same memory before and
    after the clearing loop. *)
Lemma getWritePointer_cleared numIn numOut b c :
  (c < numIn)%nat ->
  getWritePointer (clear_extra_outputs numIn numOut b) c = getWritePointer b c.
Proof.
  intros Hc. unfold getWritePointer, channel_memory.
  rewrite !list_lookup_total_alt, clear_extra_outputs_lookup.
  rewrite decide_False; [done | lia].
Qed.

Lemma channel_loop_size w bs cap buffer (l : list nat) acc :
  size (foldl (channel_step w bs cap buffer) acc l).1 = size acc.1.
Proof.
  revert acc. induction l as [|c l IH]; intros acc; simpl; [done|].
  rewrite IH. unfold channel_step. by rewrite write_channel_samples.
Qed.

Lemma channel_loop_lookup w bs cap buffer (len s : nat) acc (c : nat) :
  channels (foldl (channel_step w bs cap buffer) acc (seq s len)).1 !! c =
    if decide (s <= c < s + len)%nat
    then (fun d => (write_samples w bs cap (getWritePointer buffer c) d).1) <$> channels acc.1 !! c
    else channels acc.1 !! c.
Proof.
  revert s acc. induction len as [|len IH]; intros s acc; simpl.
  - rewrite decide_False; [done | lia].
  - rewrite IH. unfold channel_step. rewrite write_channel_samples. cbv zeta. simpl fst.
    rewrite (lookup_set_channel acc.1 s
               (fun d => (write_samples w bs cap (getWritePointer buffer s) d).1) c).
    repeat case_decide; try lia; subst; done.
Qed.

(** A property of the accesses that every channel's copy has, the whole
    channel loop has. *)
Lemma channel_loop_trace w bs cap buffer (P : nat -> access -> Prop) (l : list nat) acc :
  (forall c d, c ∈ l -> Forall (P c) (write_samples w bs cap (getWritePointer buffer c) d).2) ->
  Forall (fun ca => P ca.1 ca.2) acc.2 ->
  Forall (fun ca => P ca.1 ca.2) (foldl (channel_step w bs cap buffer) acc l).2.
Proof.
  revert acc. induction l as [|c l IH]; intros acc HP Hacc; simpl; [done|].
  apply IH.
  - intros c' d Hc'. apply HP. by right.
  - unfold channel_step. rewrite write_channel_samples. cbv zeta. simpl snd.
    apply Forall_app. split; [done|].
    apply Forall_fmap. eapply Forall_impl; [apply (HP c); by left|]. done.
Qed.

(** *** The projections of one call *)

Lemma processBlock_output p buffer :
  output (processBlock p buffer) =
    clear_extra_outputs (totalNumInputChannels p) (totalNumOutputChannels p) buffer.
Proof. unfold processBlock. by destruct (foldl _ _ _). Qed.

Lemma processBlock_writePosition p buffer :
  writePosition (processor (processBlock p buffer)) =
    Int.rem (Int.add (writePosition p) (size buffer)) (size (delayBuffer p)).
Proof.
  unfold processBlock. destruct (foldl _ _ _). simpl.
  unfold getNumSamples. by rewrite clear_extra_outputs_size.
Qed.

Lemma processBlock_channel_counts p buffer :
  totalNumInputChannels (processor (processBlock p buffer)) = totalNumInputChannels p /\
  totalNumOutputChannels (processor (processBlock p buffer)) = totalNumOutputChannels p.
Proof. unfold processBlock. by destruct (foldl _ _ _). Qed.

Lemma processBlock_capacity p buffer :
  size (delayBuffer (processor (processBlock p buffer))) = size (delayBuffer p).
Proof.
  unfold processBlock.
  pose proof (channel_loop_size (writePosition p)
    (getNumSamples (clear_extra_outputs (totalNumInputChannels p) (totalNumOutputChannels p) buffer))
    (getNumSamples (delayBuffer p))
    (clear_extra_outputs (totalNumInputChannels p) (totalNumOutputChannels p) buffer)
    (seq 0 (totalNumInputChannels p)) (delayBuffer p, [])) as Hs.
  by destruct (foldl _ _ _).
Qed.

Lemma processBlock_delay_channel p buffer c :
  (c < totalNumInputChannels p)%nat ->
  channels (delayBuffer (processor (processBlock p buffer))) !! c =
    (fun d => (write_samples (writePosition p) (size buffer) (size (delayBuffer p))
                 (getWritePointer buffer c) d).1) <$> channels (delayBuffer p) !! c.
Proof.
  intros Hc. unfold processBlock.
  pose proof (channel_loop_lookup (writePosition p)
    (getNumSamples (clear_extra_outputs (totalNumInputChannels p) (totalNumOutputChannels p) buffer))
    (getNumSamples (delayBuffer p))
    (clear_extra_outputs (totalNumInputChannels p) (totalNumOutputChannels p) buffer)
    (totalNumInputChannels p) 0 (delayBuffer p, []) c) as Hl.
  destruct (foldl _ _ _). simpl in *. rewrite Hl.
  rewrite decide_True by lia.
  unfold getNumSamples. by rewrite clear_extra_outputs_size, getWritePointer_cleared.
Qed.

Lemma processBlock_trace p buffer (P : nat -> access -> Prop) :
  (forall c d, (c < totalNumInputChannels p)%nat ->
     Forall (P c) (write_samples (writePosition p) (size buffer) (size (delayBuffer p))
                     (getWritePointer buffer c) d).2) ->
  Forall (fun ca => P ca.1 ca.2) (trace (processBlock p buffer)).
Proof.
  intros HP. unfold processBlock.
  pose proof (channel_loop_trace (writePosition p)
    (getNumSamples (clear_extra_outputs (totalNumInputChannels p) (totalNumOutputChannels p) buffer))
    (getNumSamples (delayBuffer p))
    (clear_extra_outputs (totalNumInputChannels p) (totalNumOutputChannels p) buffer)
    P (seq 0 (totalNumInputChannels p)) (delayBuffer p, [])) as Ht.
  destruct (foldl _ _ _). simpl in *. apply Ht; [|constructor].
  intros c d Hc. apply elem_of_seq in Hc.
  unfold getNumSamples. rewrite clear_extra_outputs_size, getWritePointer_cleared by lia.
  apply HP. lia.
Qed.

End ProcessBlock.

(** ** The host buffer after processBlock *)

Section HostBuffer.
Context {M : Platform}.

(** An input channel of the host buffer comes back as it went in. *)
Lemma output_input_channel p buffer channel :
  (channel < totalNumInputChannels p)%nat ->
  channels (output (processBlock p buffer)) !! channel = channels buffer !! channel.
Proof.
  intros Hc. rewrite processBlock_output, clear_extra_outputs_lookup.
  rewrite decide_False; [done | lia].
Qed.

(** Clearing a whole channel leaves zeros. *)
Lemma clear_samples_all (c : list float) :
  (clear_samples c 0 (length c)).1 = replicate (length c) F32.zero.
Proof.
  apply list_eq. intros j. rewrite clear_samples_lookup.
  destruct (decide (j < length c)%nat) as [Hj|Hj].
  - rewrite decide_True by lia. rewrite lookup_replicate_2 by done.
    destruct (lookup_lt_is_Some_2 c j Hj) as [x ->]. done.
  - rewrite decide_False by lia.
    rewrite lookup_ge_None_2 by lia. symmetry. apply lookup_replicate_None. lia.
Qed.

(** The processor after a stream has the channel counts it started with,
    and the input channels of the stream come back unchanged. *)
Lemma process_stream_input_channel p blocks channel :
  (channel < totalNumInputChannels p)%nat ->
  stream channel (process_stream p blocks).2 = stream channel blocks.
Proof.
  revert p. induction blocks as [|b blocks IH]; intros p Hc; simpl; [done|].
  specialize (IH (processor (processBlock p b))).
  destruct (process_stream _ blocks) as [[q states] outs]. simpl in *.
  unfold stream in *. simpl. f_equal.
  - by rewrite !list_lookup_total_alt, output_input_channel.
  - apply IH. by rewrite (proj1 (processBlock_channel_counts p b)).
Qed.

End HostBuffer.

(** C10: whatever the processor state, [processBlock] leaves every input
    channel of the host buffer exactly as it arrived, so the output is the
    dry input and nothing of the delay buffer reaches it; every output
    channel from the input channel count on is cleared to zeros. *)
Theorem processBlock_host_buffer {M : Platform} (p : Processor) (buffer : AudioBuffer)
    (channel : nat) (c : list float) :
  wf_buffer buffer ->
  channels buffer !! channel = Some c ->
  ((channel < totalNumInputChannels p)%nat ->
     channels (output (processBlock p buffer)) !! channel = Some c) /\
  ((totalNumInputChannels p <= channel < totalNumOutputChannels p)%nat ->
     channels (output (processBlock p buffer)) !! channel
       = Some (replicate (length c) F32.zero)).
Proof.
  intros [Hsize Hwf] Hc. split; intros Hch.
  - by rewrite output_input_channel.
  - rewrite processBlock_output, clear_extra_outputs_lookup.
    rewrite decide_True by done. rewrite Hc. simpl. f_equal.
    rewrite Forall_lookup in Hwf. rewrite <- (Hwf _ _ Hc), Nat2Z.id.
    apply clear_samples_all.
Qed.

(** C2, as the code has it: every output sample of an input channel is the
    input sample itself (the formula with dry mix 1 and wet mix 0), and the
    host buffer that comes back does not depend on the delay buffer or the
    write position: no delayed sample is read or mixed in. *)
Theorem processBlock_output_is_input {M : Platform} (p : Processor) (buffer : AudioBuffer)
    (channel n : nat) :
  (channel < totalNumInputChannels p)%nat ->
  sample (output (processBlock p buffer)) channel n = sample buffer channel n /\
  forall (db : AudioBuffer) (w : Z),
    output (processBlock
              (mkProcessor (totalNumInputChannels p) (totalNumOutputChannels p) db w) buffer)
      = output (processBlock p buffer).
Proof.
  intros Hc. split.
  - unfold sample. by rewrite output_input_channel.
  - intros db w. by rewrite !processBlock_output.
Qed.

(** C6, as the code has it: for every partition of the stream into blocks
    the concatenated output of an input channel is the concatenated input,
    so an impulse at index [k] comes out at index [k] and nowhere else: the
    delay is zero samples. *)
Theorem impulse_comes_out_undelayed {M : Platform} (p : Processor)
    (blocks : list AudioBuffer) (channel k len : nat) :
  (channel < totalNumInputChannels p)%nat ->
  stream channel blocks = impulse k len ->
  stream channel (process_stream p blocks).2 = impulse k len.
Proof. intros Hc Hin. by rewrite process_stream_input_channel. Qed.

(** ** The write position *)

(** One call: without overflow of [int], the cursor moves on by the block
    length modulo the capacity. *)
Lemma writePosition_step {M : Platform} p buffer :
  0 < size (delayBuffer p) ->
  0 <= writePosition p ->
  0 <= size buffer ->
  writePosition p + size buffer <= Int.max_signed ->
  writePosition (processor (processBlock p buffer))
    = (writePosition p + size buffer) `mod` size (delayBuffer p).
Proof.
  intros Hcap Hw Hbs Hmax. rewrite processBlock_writePosition.
  unfold Int.rem, Int.add. rewrite wrap_in_range.
  - apply Z.rem_mod_nonneg; lia.
  - unfold Int.in_range, Int.min_signed, Int.max_signed in *. lia.
Qed.

(** C4, as the code has it: a call whose sum [writePosition + blockSize]
    fits in an [int] moves the one write position, shared by all channels,
    to [(writePosition + blockSize) mod capacity]; and over every sequence
    of calls with block lengths up to the capacity, on a delay buffer of at
    most 2^30 samples, the write position is in [0, capacity) after each
    call. *)
Theorem writePosition_advances {M : Platform} (p : Processor) :
  0 < size (delayBuffer p) ->
  0 <= writePosition p ->
  (forall buffer : AudioBuffer,
     0 <= size buffer ->
     writePosition p + size buffer <= Int.max_signed ->
     writePosition (processor (processBlock p buffer))
       = (writePosition p + size buffer) `mod` size (delayBuffer p)) /\
  (forall blocks : list AudioBuffer,
     writePosition p < size (delayBuffer p) ->
     size (delayBuffer p) <= 2 ^ 30 ->
     Forall (fun b => 0 <= size b <= size (delayBuffer p)) blocks ->
     Forall (fun q => 0 <= writePosition q < size (delayBuffer q) /\
                      size (delayBuffer q) = size (delayBuffer p))
       (process_stream p blocks).1.2).
Proof.
  intros Hcap Hw. split.
  - intros buffer Hbs Hmax. by apply writePosition_step.
  - intros blocks Hlt Hbig Hblocks. revert p Hcap Hw Hlt Hbig Hblocks.
    induction blocks as [|b blocks IH]; intros p Hcap Hw Hlt Hbig Hblocks; simpl.
    { constructor. }
    apply Forall_cons in Hblocks as [Hb Hblocks].
    assert (writePosition (processor (processBlock p b))
              = (writePosition p + size b) `mod` size (delayBuffer p)) as Hstep.
    { apply writePosition_step; unfold Int.max_signed; lia. }
    pose proof (Z.mod_pos_bound (writePosition p + size b) (size (delayBuffer p)) Hcap) as Hrange.
    pose proof (processBlock_capacity p b) as Hsame.
    specialize (IH (processor (processBlock p b))).
    rewrite Hsame in IH.
    destruct (process_stream _ blocks) as [[q states] outs]. simpl in *.
    constructor.
    + lia.
    + apply IH; try done; lia.
Qed.

(** ** The samples written into the delay buffer *)

Section WriteSamples.
Context {M : Platform}.
Implicit Types (w bs cap : Z) (src : Ptr) (d : list float).

Lemma write_samples_length w bs cap src d :
  length (write_samples w bs cap src d).1 = length d.
Proof.
  unfold write_samples, copyWithMultiply. destruct (_ >? _).
  - apply transfer_length.
  - pose proof (transfer_length (fun x => fmul x F32.tenth) d w src
                  (Z.to_nat (Int.sub cap w))) as H1.
    destruct (transfer _ d _ _ _) as [d1 t1]. simpl in *.
    pose proof (transfer_length (fun x => fmul x F32.tenth) d1 0
                  (ptr_sub src (Int.sub cap w))
                  (Z.to_nat (Int.sub bs (Int.sub cap w)))) as H2.
    destruct (transfer _ d1 _ _ _) as [d2 t2]. simpl in *. congruence.
Qed.

(** The three integer results of the loop body, when nothing overflows. *)
Lemma write_arith w bs cap :
  0 <= w < cap -> 0 < bs <= cap -> cap <= Int.max_signed -> bs + w <= Int.max_signed ->
  Int.add bs w = bs + w /\ Int.sub cap w = cap - w /\
  Int.sub bs (cap - w) = bs - (cap - w).
Proof.
  intros Hw Hbs Hcap Hsum. unfold Int.add, Int.sub.
  rewrite !wrap_in_range; [done|..];
    unfold Int.in_range, Int.min_signed, Int.max_signed in *; lia.
Qed.

(** Input sample [i] lands at ring position [w + i], multiplied by [0.1f],
    as long as that position is before the end of the ring. *)
Lemma write_samples_stored w bs cap src d (i : Z) :
  0 <= w < cap -> 0 < bs <= cap -> cap <= Int.max_signed -> bs + w <= Int.max_signed ->
  Z.of_nat (length d) = cap ->
  0 <= i < bs -> w + i < cap ->
  (write_samples w bs cap src d).1 !! Z.to_nat (w + i)
    = Some (fmul (mem src (pos src + i)) F32.tenth).
Proof.
  intros Hw Hbs Hcap Hsum Hlen Hi Hend.
  destruct (write_arith w bs cap) as (Ha & Hs1 & Hs2); try done.
  destruct (lookup_lt_is_Some_2 d (Z.to_nat (w + i))) as [y Hy]; [lia|].
  unfold write_samples, copyWithMultiply. rewrite Ha, Hs1, Hs2, Z.gtb_ltb.
  destruct (Z.ltb_spec (bs + w) cap) as [Hfit|Hsplit].
  - rewrite transfer_lookup, decide_True, Hy by lia. simpl. do 3 f_equal. lia.
  - pose proof (transfer_lookup (fun x => fmul x F32.tenth) d w src
                  (Z.to_nat (cap - w)) (Z.to_nat (w + i))) as H1.
    destruct (transfer _ d _ _ _) as [d1 t1]. simpl in *.
    pose proof (transfer_lookup (fun x => fmul x F32.tenth) d1 0
                  (ptr_sub src (cap - w)) (Z.to_nat (bs - (cap - w)))
                  (Z.to_nat (w + i))) as H2.
    destruct (transfer _ d1 _ _ _) as [d2 t2]. simpl in *.
    rewrite H2, decide_False, H1, decide_True, Hy by lia. simpl. do 3 f_equal. lia.
Qed.

(** Ring positions outside [w, w + bs) and outside [0, w + bs - cap) keep
    their sample. *)
Lemma write_samples_untouched w bs cap src d (j : nat) :
  0 <= w < cap -> 0 < bs <= cap -> cap <= Int.max_signed -> bs + w <= Int.max_signed ->
  ~ (w <= Z.of_nat j < w + bs) -> ~ (Z.of_nat j < w + bs - cap) ->
  (write_samples w bs cap src d).1 !! j = d !! j.
Proof.
  intros Hw Hbs Hcap Hsum Hout1 Hout2.
  destruct (write_arith w bs cap) as (Ha & Hs1 & Hs2); try done.
  unfold write_samples, copyWithMultiply. rewrite Ha, Hs1, Hs2, Z.gtb_ltb.
  destruct (Z.ltb_spec (bs + w) cap) as [Hfit|Hsplit].
  - rewrite transfer_lookup, decide_False; [done | lia].
  - pose proof (transfer_lookup (fun x => fmul x F32.tenth) d w src
                  (Z.to_nat (cap - w)) j) as H1.
    destruct (transfer _ d _ _ _) as [d1 t1]. simpl in *.
    pose proof (transfer_lookup (fun x => fmul x F32.tenth) d1 0
                  (ptr_sub src (cap - w)) (Z.to_nat (bs - (cap - w))) j) as H2.
    destruct (transfer _ d1 _ _ _) as [d2 t2]. simpl in *.
    rewrite H2, decide_False, H1, decide_False; [done | lia | lia].
Qed.

(** No store of either copy is at or past the capacity. *)
Lemma write_samples_stores w bs cap src d :
  0 <= w < cap -> 0 < bs <= cap -> cap <= Int.max_signed -> bs + w <= Int.max_signed ->
  Forall (stores_within 0 cap) (write_samples w bs cap src d).2.
Proof.
  intros Hw Hbs Hcap Hsum.
  destruct (write_arith w bs cap) as (Ha & Hs1 & Hs2); try done.
  unfold write_samples, copyWithMultiply. rewrite Ha, Hs1, Hs2, Z.gtb_ltb.
  destruct (Z.ltb_spec (bs + w) cap) as [Hfit|Hsplit].
  - eapply Forall_impl; [apply transfer_trace|]. intros [k|k]; simpl; lia.
  - pose proof (transfer_trace (fun x => fmul x F32.tenth) d w src
                  (Z.to_nat (cap - w))) as H1.
    destruct (transfer _ d _ _ _) as [d1 t1]. simpl in *.
    pose proof (transfer_trace (fun x => fmul x F32.tenth) d1 0
                  (ptr_sub src (cap - w)) (Z.to_nat (bs - (cap - w)))) as H2.
    destruct (transfer _ d1 _ _ _) as [d2 t2]. simpl in *.
    apply Forall_app. split.
    + eapply Forall_impl; [exact H1|]. intros [k|k]; simpl; lia.
    + eapply Forall_impl; [exact H2|]. intros [k|k]; simpl; lia.
Qed.

(** When the block fits before the end of the ring, every load of a copy
    that starts at the first sample of the block is inside the block. *)
Lemma write_samples_loads w bs cap src d :
  0 <= w < cap -> 0 < bs <= cap -> cap <= Int.max_signed -> bs + w <= Int.max_signed ->
  bs + w <= cap -> pos src = 0 ->
  Forall (loads_within 0 bs) (write_samples w bs cap src d).2.
Proof.
  intros Hw Hbs Hcap Hsum Hfits Hpos.
  destruct (write_arith w bs cap) as (Ha & Hs1 & Hs2); try done.
  unfold write_samples, copyWithMultiply. rewrite Ha, Hs1, Hs2, Z.gtb_ltb.
  destruct (Z.ltb_spec (bs + w) cap) as [Hfit|Hsplit].
  - eapply Forall_impl; [apply transfer_trace|]. intros [k|k]; simpl; lia.
  - pose proof (transfer_trace (fun x => fmul x F32.tenth) d w src
                  (Z.to_nat (cap - w))) as H1.
    destruct (transfer _ d _ _ _) as [d1 t1]. simpl in *.
    replace (Z.to_nat (bs - (cap - w))) with 0%nat by lia. simpl.
    rewrite app_nil_r.
    eapply Forall_impl; [exact H1|]. intros [k|k]; simpl; lia.
Qed.

(** A sample of the host channel, seen through the channel's pointer. *)
Lemma getWritePointer_sample buffer channel block (i : nat) x :
  channels buffer !! channel = Some block ->
  block !! i = Some x ->
  mem (getWritePointer buffer channel) (pos (getWritePointer buffer channel) + Z.of_nat i) = x.
Proof.
  intros Hb Hx. simpl. unfold channel_memory.
  rewrite (list_lookup_total_correct _ _ _ Hb), Z.add_0_l.
  destruct (Z.leb_spec 0 (Z.of_nat i)); [|lia].
  by rewrite Nat2Z.id, Hx.
Qed.

End WriteSamples.

(** C1, as the code has it: with [0 < blockSize <= capacity], a write
    position in [0, capacity) and no overflow of [int], input sample [i] of
    the channel is stored, multiplied by the gain 0.1f, at ring position
    [w + i] whenever that position is before the end of the ring: the whole
    block in order at [w, w + blockSize) when [w + blockSize <= capacity],
    its first [capacity - w] samples at [w, capacity) otherwise.  Ring
    positions outside [w, w + blockSize) and outside [0, w + blockSize -
    capacity) keep their sample, the ring keeps its length, and no store is
    at or past [capacity].  What the second copy of the split path stores at
    [0, w + blockSize - capacity) is not part of this statement. *)
Theorem processBlock_writes_block {M : Platform} (p : Processor) (buffer : AudioBuffer)
    (channel : nat) (block d : list float) :
  wf_buffer buffer -> wf_buffer (delayBuffer p) ->
  (channel < totalNumInputChannels p)%nat ->
  channels buffer !! channel = Some block ->
  channels (delayBuffer p) !! channel = Some d ->
  0 < size buffer <= size (delayBuffer p) ->
  0 <= writePosition p < size (delayBuffer p) ->
  size buffer + writePosition p <= Int.max_signed ->
  exists d' : list float,
    channels (delayBuffer (processor (processBlock p buffer))) !! channel = Some d' /\
    length d' = length d /\
    (forall (i : nat) (x : float),
       block !! i = Some x ->
       writePosition p + Z.of_nat i < size (delayBuffer p) ->
       d' !! Z.to_nat (writePosition p + Z.of_nat i) = Some (fmul x F32.tenth)) /\
    (forall j : nat,
       ~ (writePosition p <= Z.of_nat j < writePosition p + size buffer) ->
       ~ (Z.of_nat j < writePosition p + size buffer - size (delayBuffer p)) ->
       d' !! j = d !! j) /\
    Forall (fun ca => stores_within 0 (size (delayBuffer p)) ca.2)
      (trace (processBlock p buffer)).
Proof.
  intros [Hbs Hwfb] [Hcap Hwfd] Hch Hblock Hd Hsize Hw Hsum.
  rewrite Forall_lookup in Hwfb. rewrite Forall_lookup in Hwfd.
  pose proof (Hwfb _ _ Hblock) as Hblen. pose proof (Hwfd _ _ Hd) as Hdlen.
  eexists. split; [|split; [|split; [|split]]].
  - rewrite processBlock_delay_channel, Hd by done. reflexivity.
  - apply write_samples_length.
  - intros i x Hx Hend. apply lookup_lt_Some in Hx as Hi.
    rewrite write_samples_stored; try lia.
    by rewrite (getWritePointer_sample buffer channel block i x).
  - intros j Hj1 Hj2. apply write_samples_untouched; lia.
  - apply (processBlock_trace p buffer (fun _ => stores_within 0 (size (delayBuffer p)))).
    intros c d0 _. apply write_samples_stores; lia.
Qed.

(** The unsplit path loads inside the block only: the loads before the block
    belong to the second copy of the split path. *)
Lemma processBlock_loads_in_block {M : Platform} (p : Processor) (buffer : AudioBuffer) :
  0 < size buffer <= size (delayBuffer p) ->
  0 <= writePosition p < size (delayBuffer p) ->
  size (delayBuffer p) <= Int.max_signed ->
  size buffer + writePosition p <= size (delayBuffer p) ->
  Forall (fun ca => loads_within 0 (size buffer) ca.2) (trace (processBlock p buffer)).
Proof.
  intros Hbs Hw Hcap Hfits.
  apply (processBlock_trace p buffer (fun _ => loads_within 0 (size buffer))).
  intros c d _. apply write_samples_loads; try done; lia.
Qed.

(** C3, at the failing input: capacity 8, write position 6, one channel, a
    block of 4 samples.  The first copy loads block offsets 0 and 1; the
    second copy is given [channelData - numSamplesToEnd] and loads offsets
    -2 and -1, before the first sample of the block, where the rest of the
    block is at offsets 2 and 3. *)
Theorem split_copy_loads_before_block {M : Platform} (x0 x1 x2 x3 : float) :
  let p := mkProcessor 1 1 (mkAudioBuffer 8 [replicate 8 F32.zero]) 6 in
  let buffer := mkAudioBuffer 4 [[x0; x1; x2; x3]] in
  trace (processBlock p buffer)
    = [(0%nat, Load 0); (0%nat, Store 6); (0%nat, Load 1); (0%nat, Store 7);
       (0%nat, Load (-2)); (0%nat, Store 0); (0%nat, Load (-1)); (0%nat, Store 1)]
  /\ ~ Forall (fun ca => loads_within 0 (size buffer) ca.2) (trace (processBlock p buffer))
  /\ channels (delayBuffer (processor (processBlock p buffer))) !! 0%nat
     = Some [fmul (stray 0 (-2)) F32.tenth; fmul (stray 0 (-1)) F32.tenth;
             F32.zero; F32.zero; F32.zero; F32.zero;
             fmul x0 F32.tenth; fmul x1 F32.tenth].
Proof.
  intros p buffer.
  assert (trace (processBlock p buffer)
    = [(0%nat, Load 0); (0%nat, Store 6); (0%nat, Load 1); (0%nat, Store 7);
       (0%nat, Load (-2)); (0%nat, Store 0); (0%nat, Load (-1)); (0%nat, Store 1)]) as Ht.
  { reflexivity. }
  split; [exact Ht|]. split.
  - rewrite Ht. intros Hall.
    apply Forall_lookup with (i := 4%nat) (x := (0%nat, Load (-2))) in Hall; [|done].
    simpl in Hall. lia.
  - reflexivity.
Qed.

(** ** prepareToPlay *)

Lemma to_int_in_range (x : double) : Int.in_range (F64.to_int x).
Proof.
  unfold Int.in_range, F64.to_int.
  destruct x as [s|s| |s m e]; try (unfold Int.min_signed, Int.max_signed; lia).
  destruct (_ && _) eqn:Hb.
  - apply andb_prop in Hb as [H1 H2]. apply Z.leb_le in H1, H2. lia.
  - unfold Int.min_signed, Int.max_signed; lia.
Qed.

Lemma setSize_size {M : Platform} b newNumChannels newNumSamples :
  size (setSize b newNumChannels newNumSamples) = newNumSamples.
Proof.
  unfold setSize. case_bool_decide as Hd; [done|].
  destruct (decide (newNumSamples = size b)); [done|]. exfalso. apply Hd. by left.
Qed.

Lemma setSize_wf {M : Platform} b newNumChannels newNumSamples :
  wf_buffer b -> 0 <= newNumSamples <= Int.max_signed ->
  wf_buffer (setSize b newNumChannels newNumSamples) /\
  getNumChannels (setSize b newNumChannels newNumSamples) = newNumChannels.
Proof.
  intros Hwf Hn. unfold setSize. case_bool_decide as Hd.
  - split.
    + split; [done|]. simpl. apply Forall_fmap, Forall_forall. intros c _. simpl.
      rewrite length_fmap, length_seq. lia.
    + unfold getNumChannels. simpl. by rewrite length_fmap, length_seq.
  - split; [done|].
    destruct (decide (newNumChannels = getNumChannels b)); [done|].
    exfalso. apply Hd. by right.
Qed.

(** C5, as the code has it: [prepareToPlay] gives the delay buffer the
    length [(int) (sampleRate * 2.0)], the product cut off toward zero, and
    one channel of that length per output channel; it leaves the write
    position as it was, which is 0 on a processor fresh from its
    constructor.  The stored samples are not part of this statement: the
    code does not zero them. *)
Theorem prepareToPlay_sizes_delay_buffer {M : Platform} (p : Processor)
    (sampleRate : double) (samplesPerBlock : Z) :
  let capacity := F64.to_int (F64.mul sampleRate F64.two) in
  size (delayBuffer (prepareToPlay p sampleRate samplesPerBlock)) = capacity /\
  writePosition (prepareToPlay p sampleRate samplesPerBlock) = writePosition p /\
  (forall numIn numOut : nat,
     writePosition (prepareToPlay (construct numIn numOut) sampleRate samplesPerBlock) = 0) /\
  (wf_buffer (delayBuffer p) -> 0 <= capacity ->
     wf_buffer (delayBuffer (prepareToPlay p sampleRate samplesPerBlock)) /\
     getNumChannels (delayBuffer (prepareToPlay p sampleRate samplesPerBlock))
       = totalNumOutputChannels p).
Proof.
  intros capacity. unfold prepareToPlay. cbn [delayBuffer writePosition totalNumOutputChannels].
  split; [apply setSize_size|]. split; [done|]. split; [done|].
  intros Hwf Hcap. apply setSize_wf; [done|].
  pose proof (to_int_in_range (F64.mul sampleRate F64.two)) as Hr.
  unfold Int.in_range in Hr. fold capacity in Hr. lia.
Qed.

(** C8, as the code has it: [prepareToPlay] checks nothing and has no way to
    report an error.  Its result does not depend on [samplesPerBlock], and a
    configuration the specification calls invalid (a ring that is empty or
    shorter than the announced block) is installed like any other: the delay
    buffer takes the requested length, so the processor is not what it was
    before the call unless it had that length already. *)
Theorem prepareToPlay_accepts_every_configuration {M : Platform} (p : Processor)
    (sampleRate : double) (samplesPerBlock : Z) :
  (forall samplesPerBlock' : Z,
     prepareToPlay p sampleRate samplesPerBlock = prepareToPlay p sampleRate samplesPerBlock') /\
  (spec_invalid_configuration sampleRate samplesPerBlock ->
     size (delayBuffer (prepareToPlay p sampleRate samplesPerBlock))
       = F64.to_int (F64.mul sampleRate F64.two) /\
     (size (delayBuffer p) <> F64.to_int (F64.mul sampleRate F64.two) ->
      prepareToPlay p sampleRate samplesPerBlock <> p)).
Proof.
  split; [done|]. intros _.
  assert (size (delayBuffer (prepareToPlay p sampleRate samplesPerBlock))
            = F64.to_int (F64.mul sampleRate F64.two)) as Hsize.
  { unfold prepareToPlay. simpl. apply setSize_size. }
  split; [exact Hsize|]. intros Hne Heq. rewrite Heq in Hsize. contradiction.
Qed.

(** C9, as the code has it: the copy that [processBlock] makes, in all
    three places with start gain 0.1f and end gain 0.1f, stores every source
    sample multiplied by the one gain 0.1f: the gain is the same at every
    position of the copy and does not ramp. *)
Theorem copyFromWithRamp_constant_gain {M : Platform} (b : AudioBuffer) (destChannel : nat)
    (d : list float) (destStartSample : Z) (source : Ptr) (numSamples : Z) (j : nat) :
  channels b !! destChannel = Some d ->
  destStartSample <= Z.of_nat j < destStartSample + numSamples ->
  (j < length d)%nat ->
  sample (copyFromWithRamp b destChannel destStartSample source numSamples
            F32.tenth F32.tenth).1 destChannel j
    = Some (fmul (mem source (pos source + (Z.of_nat j - destStartSample))) F32.tenth).
Proof.
  intros Hd Hj Hlen. rewrite copyFromWithRamp_tenth. cbv zeta. unfold sample.
  cbn [fst].
  rewrite (lookup_set_channel b destChannel
             (fun d => (copyWithMultiply d destStartSample source F32.tenth
                          (Z.to_nat numSamples)).1) destChannel).
  rewrite decide_True, Hd by done. simpl.
  unfold copyWithMultiply. rewrite transfer_lookup, decide_True by lia.
  destruct (lookup_lt_is_Some_2 d j Hlen) as [y ->]. done.
Qed.

(** * Concrete runs *)

(** The runs below are evaluated on the [ieee] platform; no value in them is
    denormal. *)

(** C10 at a stereo-out, mono-in processor: channel 0 comes back as it was,
    channel 1 comes back as zeros. *)
Lemma processBlock_host_buffer_witness :
  let p := mkProcessor 1 2 (mkAudioBuffer 8 [replicate 8 F32.zero; replicate 8 F32.zero]) 6 in
  let buffer := mkAudioBuffer 3 [F32.of_int <$> [1; 2; 3]; F32.of_int <$> [4; 5; 6]] in
  channels (output (processBlock (M:=ieee) p buffer)) !! 0%nat = Some (F32.of_int <$> [1; 2; 3]) /\
  channels (output (processBlock (M:=ieee) p buffer)) !! 1%nat = Some (replicate 3 F32.zero).
Proof.
  intros p buffer.
  assert (wf_buffer buffer) as Hwf.
  { split; [vm_compute; split; discriminate | repeat constructor]. }
  split.
  - apply (proj1 (processBlock_host_buffer (M:=ieee) p buffer 0
                    (F32.of_int <$> [1; 2; 3]) Hwf eq_refl)).
    simpl. lia.
  - apply (proj2 (processBlock_host_buffer (M:=ieee) p buffer 1
                    (F32.of_int <$> [4; 5; 6]) Hwf eq_refl)).
    simpl. lia.
Defined.

(** C2 as stated fails: capacity 4, write position 0, ring of zeros, a block
    of two samples 1.0.  With dry mix 0, wet mix 1 and a delay of one sample
    the formula gives [0.0; 0.0] on the ring as it was and [0.0; 0.1f] on the
    ring after the write; the code returns the input [1.0; 1.0]. *)
Lemma processBlock_mix_counterexample :
  let p := prepareToPlay (M:=ieee) (construct 1 1) (F64.of_int 2) 2 in
  let input := [F32.one; F32.one] in
  let o := processBlock (M:=ieee) p (mkAudioBuffer 2 [input]) in
  let ring_before := channels (delayBuffer p) !!! 0%nat in
  let ring_after := channels (delayBuffer (processor o)) !!! 0%nat in
  size (delayBuffer p) = 4 /\
  channels (output o) !! 0%nat = Some input /\
  spec_output (M:=ieee) F32.zero F32.one input ring_before (writePosition p) 1
    = [F32.zero; F32.zero] /\
  spec_output (M:=ieee) F32.zero F32.one input ring_after (writePosition p) 1
    = [F32.zero; F32.tenth] /\
  channels (output o) !! 0%nat
    ≠ Some (spec_output (M:=ieee) F32.zero F32.one input ring_before (writePosition p) 1) /\
  channels (output o) !! 0%nat
    ≠ Some (spec_output (M:=ieee) F32.zero F32.one input ring_after (writePosition p) 1).
Proof. vm_compute. repeat split; congruence. Qed.

Lemma processBlock_output_is_input_witness :
  let p := mkProcessor 1 1 (mkAudioBuffer 4 [replicate 4 F32.zero]) 0 in
  let buffer := mkAudioBuffer 2 [[F32.one; F32.one]] in
  sample (output (processBlock (M:=ieee) p buffer)) 0 1 = Some F32.one /\
  output (processBlock (M:=ieee)
            (mkProcessor 1 1 (mkAudioBuffer 4 [replicate 4 F32.one]) 3) buffer)
    = output (processBlock (M:=ieee) p buffer).
Proof.
  intros p buffer.
  destruct (processBlock_output_is_input (M:=ieee) p buffer 0 1) as [Hs Hindep].
  - simpl. lia.
  - split; [exact Hs|]. apply (Hindep (mkAudioBuffer 4 [replicate 4 F32.one]) 3).
Defined.

(** C6 as stated fails: an impulse at index k = 0, fed as two blocks of two
    samples.  For a delay of d = 1 sample the impulse is due at index 1; the
    output has it at index 0 and holds 0.0 at index 1. *)
Lemma impulse_delay_counterexample :
  let p := prepareToPlay (M:=ieee) (construct 1 1) (F64.of_int 4) 2 in
  let blocks := [mkAudioBuffer 2 [[F32.one; F32.zero]]; mkAudioBuffer 2 [[F32.zero; F32.zero]]] in
  let k := 0%nat in
  let d := 1%nat in
  let out := stream 0 (process_stream (M:=ieee) p blocks).2 in
  stream 0 blocks = impulse k 4 /\
  out ≠ impulse (k + d) 4 /\
  out !! (k + d)%nat = Some F32.zero /\
  out !! k = Some F32.one.
Proof. vm_compute. repeat split; congruence. Qed.

Lemma impulse_comes_out_undelayed_witness :
  let p := prepareToPlay (M:=ieee) (construct 1 1) (F64.of_int 4) 2 in
  let blocks := [mkAudioBuffer 3 [[F32.zero; F32.zero; F32.one]];
                 mkAudioBuffer 2 [[F32.zero; F32.zero]]] in
  stream 0 (process_stream (M:=ieee) p blocks).2 = impulse 2 5.
Proof.
  intros p blocks.
  apply (impulse_comes_out_undelayed (M:=ieee) p blocks 0 2 5).
  - simpl. lia.
  - reflexivity.
Defined.

(** C4 as stated fails where the sum overflows [int]: capacity 2^31 - 1,
    write position 2^31 - 2, a block of 2 samples.  The sum wraps to -2^31,
    and the remainder of that by the capacity is -1, where
    [(writePosition + blockSize) mod capacity] is 1. *)
Lemma writePosition_overflow_counterexample :
  let capacity := 2147483647 in
  let p := mkProcessor 1 1
             (mkAudioBuffer capacity [replicate (Z.to_nat capacity) F32.zero]) 2147483646 in
  let buffer := mkAudioBuffer 2 [[F32.one; F32.one]] in
  0 <= writePosition p < capacity /\
  0 < size buffer <= capacity /\
  (writePosition p + size buffer) `mod` capacity = 1 /\
  writePosition (processor (processBlock (M:=ieee) p buffer)) = -1.
Proof.
  intros capacity p buffer. rewrite processBlock_writePosition.
  subst p buffer capacity. cbn [writePosition size delayBuffer].
  repeat split; try (vm_compute; congruence).
Qed.

Lemma writePosition_advances_witness :
  let p := mkProcessor 1 1 (mkAudioBuffer 8 [replicate 8 F32.zero]) 6 in
  let block n := mkAudioBuffer (Z.of_nat n) [replicate n F32.one] in
  writePosition (processor (processBlock (M:=ieee) p (block 4%nat))) = (6 + 4) `mod` 8 /\
  Forall (fun q => 0 <= writePosition q < size (delayBuffer q) /\ size (delayBuffer q) = 8)
    (process_stream (M:=ieee) p [block 4%nat; block 8%nat; block 3%nat]).1.2.
Proof.
  intros p block.
  destruct (writePosition_advances (M:=ieee) p) as [Hstep Hseq]; [simpl; lia | simpl; lia |].
  split.
  - apply (Hstep (block 4%nat)); [simpl; lia | vm_compute; discriminate].
  - apply (Hseq [block 4%nat; block 8%nat; block 3%nat]); [simpl; lia | simpl; lia |].
    repeat constructor; simpl; lia.
Defined.

(** C1 as stated fails: capacity 8, write position 2, the block 1, 2, 3, 4.
    The ring positions 2..5 hold the block multiplied by 0.1f, not the
    block. *)
Lemma stored_block_counterexample :
  let p := mkProcessor 1 1 (mkAudioBuffer 8 [replicate 8 F32.zero]) 2 in
  let block := F32.of_int <$> [1; 2; 3; 4] in
  let d' := channels (delayBuffer (processor
              (processBlock (M:=ieee) p (mkAudioBuffer 4 [block])))) !!! 0%nat in
  ring_region d' 2 4 = (fun x => fmul (Platform:=ieee) x F32.tenth) <$> block /\
  ring_region d' 2 4 ≠ block.
Proof. vm_compute. split; congruence. Qed.

Lemma processBlock_writes_block_witness :
  let p := mkProcessor 1 1 (mkAudioBuffer 8 [replicate 8 F32.zero]) 6 in
  let block := F32.of_int <$> [1; 2; 3; 4] in
  let buffer := mkAudioBuffer 4 [block] in
  exists d' : list float,
    channels (delayBuffer (processor (processBlock (M:=ieee) p buffer))) !! 0%nat = Some d' /\
    d' !! 7%nat = Some (fmul (Platform:=ieee) (F32.of_int 2) F32.tenth) /\
    d' !! 3%nat = Some F32.zero /\
    Forall (fun ca => stores_within 0 8 ca.2) (trace (processBlock (M:=ieee) p buffer)).
Proof.
  intros p block buffer.
  destruct (processBlock_writes_block (M:=ieee) p buffer 0 block (replicate 8 F32.zero))
    as (d' & Hd' & Hlen & Hstored & Hkept & Hstores).
  - split; [vm_compute; split; discriminate | repeat constructor].
  - split; [vm_compute; split; discriminate | repeat constructor].
  - simpl. lia.
  - reflexivity.
  - reflexivity.
  - simpl. lia.
  - simpl. lia.
  - vm_compute. discriminate.
  - exists d'. split; [exact Hd'|]. split; [|split].
    + apply (Hstored 1%nat (F32.of_int 2)); [reflexivity | simpl; lia].
    + rewrite (Hkept 3%nat); [reflexivity | simpl; lia | simpl; lia].
    + exact Hstores.
Defined.

(** C5 as stated fails: after a block of 2 samples the write position is 2,
    and a second [prepareToPlay], at another sample rate, leaves it at 2.
    At a sample rate of 0.75 the product 1.5 is cut off to a capacity of 1,
    where rounding gives 2. *)
Lemma prepareToPlay_counterexample :
  let p0 := prepareToPlay (M:=ieee) (construct 1 1) (F64.of_int 4) 2 in
  let p1 := processor (processBlock (M:=ieee) p0 (mkAudioBuffer 2 [[F32.one; F32.one]])) in
  let p2 := prepareToPlay (M:=ieee) p1 (F64.of_int 8) 2 in
  let three_quarters := SFdiv F64.prec F64.emax (F64.of_int 3) (F64.of_int 4) in
  size (delayBuffer p0) = 8 /\
  size (delayBuffer p2) = 16 /\
  writePosition p2 = 2 /\
  writePosition p2 ≠ 0 /\
  size (delayBuffer (prepareToPlay (M:=ieee) (construct 1 1) three_quarters 1)) = 1.
Proof. vm_compute. repeat split; congruence. Qed.

Lemma prepareToPlay_sizes_delay_buffer_witness :
  let p := construct 2 2 in
  let q := prepareToPlay (M:=ieee) p (F64.of_int 44100) 512 in
  size (delayBuffer q) = 88200 /\
  writePosition q = 0 /\
  wf_buffer (delayBuffer q) /\
  getNumChannels (delayBuffer q) = 2%nat.
Proof.
  intros p q.
  destruct (prepareToPlay_sizes_delay_buffer (M:=ieee) p (F64.of_int 44100) 512)
    as (Hsize & Hw & Hfresh & Hwf).
  split; [exact Hsize|]. split; [exact (Hfresh 2%nat 2%nat)|].
  apply Hwf.
  - split; [vm_compute; split; discriminate | constructor].
  - vm_compute. discriminate.
Defined.

(** C8 as stated fails: on a processor prepared for a ring of 8 samples, a
    call with sample rate 0 and a block size of 512 asks for an empty ring.
    It is not rejected: the delay buffer is left with length 0. *)
Lemma prepareToPlay_invalid_configuration_counterexample :
  let p := prepareToPlay (M:=ieee) (construct 1 1) (F64.of_int 4) 2 in
  let q := prepareToPlay (M:=ieee) p (S754_zero false) 512 in
  spec_invalid_configuration (S754_zero false) 512 /\
  size (delayBuffer p) = 8 /\
  size (delayBuffer q) = 0 /\
  q ≠ p.
Proof.
  split; [left; vm_compute; discriminate|].
  vm_compute. repeat split; congruence.
Qed.

Lemma prepareToPlay_accepts_every_configuration_witness :
  let p := prepareToPlay (M:=ieee) (construct 1 1) (F64.of_int 4) 2 in
  prepareToPlay (M:=ieee) p (F64.of_int 1) 512 = prepareToPlay (M:=ieee) p (F64.of_int 1) 1 /\
  size (delayBuffer (prepareToPlay (M:=ieee) p (F64.of_int 1) 512)) = 2 /\
  prepareToPlay (M:=ieee) p (F64.of_int 1) 512 <> p.
Proof.
  intros p.
  destruct (prepareToPlay_accepts_every_configuration (M:=ieee) p (F64.of_int 1) 512)
    as [Hindep Hinvalid].
  split; [exact (Hindep 1)|].
  destruct Hinvalid as [Hinstalled Hchanged].
  - right. vm_compute. reflexivity.
  - split; [exact Hinstalled|]. apply Hchanged. vm_compute. discriminate.
Defined.

(** C9 as stated fails: a block of twenty samples 1.0 is stored as twenty
    samples 0.1f.  The first stored sample equals the one in the middle: no
    ramp has been applied. *)
Lemma constant_gain_counterexample :
  let p := mkProcessor 1 1 (mkAudioBuffer 32 [replicate 32 F32.zero]) 0 in
  let buffer := mkAudioBuffer 20 [replicate 20 F32.one] in
  let d' := channels (delayBuffer (processor (processBlock (M:=ieee) p buffer))) !!! 0%nat in
  ring_region d' 0 20 = replicate 20 F32.tenth /\
  ~ spec_fade_applied (ring_region d' 0 20).
Proof.
  intros p buffer d'.
  assert (ring_region d' 0 20 = replicate 20 F32.tenth) as Hr by (vm_compute; reflexivity).
  split; [exact Hr|]. rewrite Hr. unfold spec_fade_applied. intros Hne. by apply Hne.
Qed.

Lemma copyFromWithRamp_constant_gain_witness :
  let b := mkAudioBuffer 4 [replicate 4 F32.zero] in
  let source := mkPtr (fun k => F32.of_int (k + 1)) 0 in
  sample (copyFromWithRamp (M:=ieee) b 0 1 source 2 F32.tenth F32.tenth).1 0 2
    = Some (fmul (Platform:=ieee) (F32.of_int 2) F32.tenth).
Proof.
  intros b source.
  apply (copyFromWithRamp_constant_gain (M:=ieee) b 0 (replicate 4 F32.zero) 1 source 2 2).
  - reflexivity.
  - simpl. lia.
  - simpl. lia.
Defined.

(** * Further properties of processBlock *)

Section Frame.
Context {M : Platform}.

Lemma channel_loop_channels_length w bs cap buffer (l : list nat) acc :
  length (channels (foldl (channel_step w bs cap buffer) acc l).1) = length (channels acc.1).
Proof.
  revert acc. induction l as [|c l IH]; intros acc; simpl; [done|].
  rewrite IH. unfold channel_step. rewrite write_channel_samples. cbv zeta. simpl.
  apply length_insert.
Qed.

Lemma processBlock_delay_channels_length p buffer :
  length (channels (delayBuffer (processor (processBlock p buffer))))
    = length (channels (delayBuffer p)).
Proof.
  unfold processBlock.
  pose proof (channel_loop_channels_length (writePosition p)
    (getNumSamples (clear_extra_outputs (totalNumInputChannels p) (totalNumOutputChannels p) buffer))
    (getNumSamples (delayBuffer p))
    (clear_extra_outputs (totalNumInputChannels p) (totalNumOutputChannels p) buffer)
    (seq 0 (totalNumInputChannels p)) (delayBuffer p, [])) as Hl.
  by destruct (foldl _ _ _).
Qed.

Lemma processBlock_delay_channel_other p buffer c :
  (totalNumInputChannels p <= c)%nat ->
  channels (delayBuffer (processor (processBlock p buffer))) !! c
    = channels (delayBuffer p) !! c.
Proof.
  intros Hc. unfold processBlock.
  pose proof (channel_loop_lookup (writePosition p)
    (getNumSamples (clear_extra_outputs (totalNumInputChannels p) (totalNumOutputChannels p) buffer))
    (getNumSamples (delayBuffer p))
    (clear_extra_outputs (totalNumInputChannels p) (totalNumOutputChannels p) buffer)
    (totalNumInputChannels p) 0 (delayBuffer p, []) c) as Hl.
  destruct (foldl _ _ _). simpl in *. rewrite Hl.
  rewrite decide_False; [done | lia].
Qed.

(** A loop of clears over no samples changes nothing. *)
Lemma clear_loop_empty (l : list nat) (b : AudioBuffer) :
  size b = 0 ->
  foldl (fun b i => clear b i 0 (getNumSamples b)) b l = b.
Proof.
  intros Hb. induction l as [|i l IH]; simpl; [done|].
  unfold clear at 2. unfold getNumSamples. rewrite Hb. simpl.
  by rewrite set_channel_id.
Qed.

Lemma channel_loop_empty w cap buffer (l : list nat) acc :
  0 <= w < cap -> cap <= Int.max_signed ->
  foldl (channel_step w 0 cap buffer) acc l = acc.
Proof.
  intros Hw Hcap. induction l as [|c l IH]; simpl; [done|].
  assert (channel_step w 0 cap buffer acc c = acc) as ->; [|done].
  unfold channel_step. rewrite write_channel_samples. cbv zeta.
  unfold write_samples, Int.add. rewrite wrap_in_range, Z.gtb_ltb.
  - destruct (Z.ltb_spec (0 + w) cap); [|lia]. simpl.
    rewrite set_channel_id, app_nil_r. by destruct acc.
  - unfold Int.in_range, Int.min_signed, Int.max_signed in *. lia.
Qed.

End Frame.

(** A host block of no samples is a no-op: the processor, with its delay
    buffer and write position, and the host buffer are what they were, and
    no sample is loaded or stored. *)
Theorem processBlock_empty_block {M : Platform} (p : Processor) (buffer : AudioBuffer) :
  size buffer = 0 ->
  0 <= writePosition p < size (delayBuffer p) ->
  size (delayBuffer p) <= Int.max_signed ->
  processor (processBlock p buffer) = p /\
  output (processBlock p buffer) = buffer /\
  trace (processBlock p buffer) = [].
Proof.
  intros Hbs Hw Hcap. unfold processBlock, clear_extra_outputs.
  rewrite clear_loop_empty by done. unfold getNumSamples. rewrite Hbs.
  rewrite channel_loop_empty by done. simpl.
  unfold Int.add, Int.rem. rewrite wrap_in_range.
  - rewrite Z.add_0_r, Z.rem_small by lia. by destruct p.
  - unfold Int.in_range, Int.min_signed, Int.max_signed in *. lia.
Qed.



Lemma processBlock_delay_wf {M : Platform} (p : Processor) (buffer : AudioBuffer) :
  wf_buffer (delayBuffer p) ->
  wf_buffer (delayBuffer (processor (processBlock p buffer))).
Proof.
  intros [Hsize Hwf]. split; [by rewrite processBlock_capacity|].
  rewrite processBlock_capacity. rewrite Forall_lookup in Hwf.
  apply Forall_lookup. intros c d' Hd'.
  destruct (decide (c < totalNumInputChannels p)%nat) as [Hc|Hc].
  - rewrite processBlock_delay_channel in Hd' by done.
    destruct (channels (delayBuffer p) !! c) as [d|] eqn:Hd; [|done].
    simpl in Hd'. injection Hd' as <-. rewrite write_samples_length. by eapply Hwf.
  - rewrite processBlock_delay_channel_other in Hd' by lia. by eapply Hwf.
Qed.

(** [processBlock] never resizes the delay buffer: its length, its number
    of channels and the number of samples of every channel stay as they
    are. *)
Theorem processBlock_keeps_delay_buffer_shape {M : Platform} (p : Processor)
    (buffer : AudioBuffer) :
  wf_buffer (delayBuffer p) ->
  wf_buffer (delayBuffer (processor (processBlock p buffer))) /\
  size (delayBuffer (processor (processBlock p buffer))) = size (delayBuffer p) /\
  getNumChannels (delayBuffer (processor (processBlock p buffer)))
    = getNumChannels (delayBuffer p).
Proof.
  intros Hwf. split; [|split].
  - by apply processBlock_delay_wf.
  - apply processBlock_capacity.
  - apply processBlock_delay_channels_length.
Qed.

(** ** Streams of blocks *)

Section Streams.
Context {M : Platform}.

Lemma process_stream_cons p b blocks :
  (process_stream p (b :: blocks)).1.1
    = (process_stream (processor (processBlock p b)) blocks).1.1.
Proof. simpl. by destruct (process_stream _ blocks) as [[q states] outs]. Qed.

Lemma total_samples_nonneg blocks :
  Forall (fun b => 0 <= size b) blocks -> 0 <= total_samples blocks.
Proof.
  induction 1 as [|b blocks Hb _ IH]; simpl; [done|]. lia.
Qed.

(** The delay-buffer channel after a block that ends at or before the end
    of the ring: the block, multiplied by 0.1f, at [w, w + blockSize), the
    old samples elsewhere. *)
Lemma processBlock_delay_channel_fit p buffer c block d :
  wf_buffer buffer -> wf_buffer (delayBuffer p) ->
  (c < totalNumInputChannels p)%nat ->
  channels buffer !! c = Some block ->
  channels (delayBuffer p) !! c = Some d ->
  0 < size buffer ->
  0 <= writePosition p ->
  writePosition p + size buffer <= size (delayBuffer p) ->
  exists d',
    channels (delayBuffer (processor (processBlock p buffer))) !! c = Some d' /\
    (forall (i : nat) x, block !! i = Some x ->
       d' !! Z.to_nat (writePosition p + Z.of_nat i) = Some (fmul x F32.tenth)) /\
    (forall j : nat,
       ~ (writePosition p <= Z.of_nat j < writePosition p + size buffer) ->
       d' !! j = d !! j).
Proof.
  intros [Hbs Hwfb] [Hcap Hwfd] Hc Hblock Hd Hpos Hw Hfit.
  rewrite Forall_lookup in Hwfb. rewrite Forall_lookup in Hwfd.
  pose proof (Hwfb _ _ Hblock) as Hblen. pose proof (Hwfd _ _ Hd) as Hdlen.
  eexists. split; [|split].
  - rewrite processBlock_delay_channel, Hd by done. reflexivity.
  - intros i x Hx. apply lookup_lt_Some in Hx as Hi.
    rewrite write_samples_stored; try lia.
    by rewrite (getWritePointer_sample buffer c block i x).
  - intros j Hj. apply write_samples_untouched; lia.
Qed.

End Streams.

(** Over a sequence of calls the write position counts the samples modulo
    the capacity: after blocks of lengths up to the capacity, on a delay
    buffer of at most 2^30 samples, it is the starting position plus the
    number of samples of all blocks, modulo the capacity. *)
Theorem writePosition_counts_samples {M : Platform} (p : Processor)
    (blocks : list AudioBuffer) :
  0 < size (delayBuffer p) <= 2 ^ 30 ->
  0 <= writePosition p < size (delayBuffer p) ->
  Forall (fun b => 0 <= size b <= size (delayBuffer p)) blocks ->
  writePosition (process_stream p blocks).1.1
    = (writePosition p + total_samples blocks) `mod` size (delayBuffer p).
Proof.
  revert p. induction blocks as [|b blocks IH]; intros p Hcap Hw Hblocks.
  - simpl. rewrite Z.add_0_r, Z.mod_small; [done | lia].
  - apply Forall_cons in Hblocks as [Hb Hblocks].
    rewrite process_stream_cons.
    assert (writePosition (processor (processBlock p b))
              = (writePosition p + size b) `mod` size (delayBuffer p)) as Hstep.
    { apply writePosition_step; unfold Int.max_signed; lia. }
    pose proof (Z.mod_pos_bound (writePosition p + size b) (size (delayBuffer p))) as Hrange.
    rewrite IH; rewrite ?processBlock_capacity; try done; try lia.
    rewrite Hstep. simpl. rewrite Zplus_mod_idemp_l. f_equal. lia.
Qed.

(** The ring holds the history of a stream: when the blocks of a stream,
    each of at least one sample, end together at or before the end of the
    ring, then sample [i] of the stream of an input channel is found,
    multiplied by 0.1f, at ring position [w + i], whatever the partition
    into blocks; the ring positions outside [w, w + total) keep their
    samples. *)
Theorem ring_holds_stream {M : Platform} (p : Processor) (blocks : list AudioBuffer)
    (c : nat) (d : list float) :
  wf_buffer (delayBuffer p) ->
  (c < totalNumInputChannels p)%nat ->
  channels (delayBuffer p) !! c = Some d ->
  Forall (fun b => wf_buffer b /\ 0 < size b /\ is_Some (channels b !! c)) blocks ->
  0 <= writePosition p ->
  writePosition p + total_samples blocks <= size (delayBuffer p) ->
  exists d',
    channels (delayBuffer (process_stream p blocks).1.1) !! c = Some d' /\
    (forall (i : nat) x, stream c blocks !! i = Some x ->
       d' !! Z.to_nat (writePosition p + Z.of_nat i) = Some (fmul x F32.tenth)) /\
    (forall j : nat,
       ~ (writePosition p <= Z.of_nat j < writePosition p + total_samples blocks) ->
       d' !! j = d !! j).
Proof.
  revert p d. induction blocks as [|b blocks IH]; intros p d Hwf Hc Hd Hblocks Hw Hfit.
  - exists d. simpl. split; [done|]. split; [|done]. intros i x Hx. by destruct i.
  - apply Forall_cons in Hblocks as [(Hwfb & Hpos & [block Hblock]) Hblocks].
    assert (0 <= total_samples blocks) as Hrest.
    { apply total_samples_nonneg. eapply Forall_impl; [exact Hblocks|]. simpl. lia. }
    simpl in Hfit.
    destruct (processBlock_delay_channel_fit p b c block d) as (d1 & Hd1 & Hst1 & Hun1);
      try done; try lia.
    rewrite process_stream_cons.
    assert (Z.of_nat (length block) = size b) as Hblen.
    { destruct Hwfb as [_ Hall]. rewrite Forall_lookup in Hall. by eapply Hall. }
    destruct blocks as [|b2 blocks].
    { exists d1. simpl. split; [done|]. split.
      - intros i x Hx. apply Hst1. unfold stream in Hx. simpl in Hx.
        rewrite app_nil_r in Hx. by rewrite (list_lookup_total_correct _ _ _ Hblock) in Hx.
      - intros j Hj. apply Hun1. simpl in Hj. lia. }
    assert (0 < total_samples (b2 :: blocks)) as Hmore.
    { apply Forall_cons in Hblocks as [(_ & Hpos2 & _) Hblocks].
      assert (0 <= total_samples blocks).
      { apply total_samples_nonneg. eapply Forall_impl; [exact Hblocks|]. simpl. lia. }
      simpl. lia. }
    destruct Hwf as [Hcap Hwfd].
    assert (writePosition (processor (processBlock p b)) = writePosition p + size b) as Hw1.
    { rewrite writePosition_step; try lia. apply Z.mod_small. lia. }
    destruct (IH (processor (processBlock p b)) d1) as (d' & Hd' & Hst & Hun).
    + by apply processBlock_delay_wf.
    + by rewrite (proj1 (processBlock_channel_counts p b)).
    + done.
    + done.
    + lia.
    + rewrite processBlock_capacity. lia.
    + exists d'. split; [done|]. split.
      * intros i x Hx. unfold stream in Hx. simpl in Hx.
        rewrite (list_lookup_total_correct _ _ _ Hblock) in Hx.
        apply lookup_app_Some in Hx as [Hx|[Hge Hx]].
        -- apply lookup_lt_Some in Hx as Hi.
           rewrite Hun by lia. by apply Hst1.
        -- specialize (Hst (i - length block)%nat x Hx).
           rewrite Hw1 in Hst.
           replace (writePosition p + size b + Z.of_nat (i - length block))
             with (writePosition p + Z.of_nat i) in Hst by lia.
           exact Hst.
      * intros j Hj.
        change (total_samples (b :: b2 :: blocks))
          with (size b + total_samples (b2 :: blocks)) in Hj.
        rewrite Hun by lia. apply Hun1. lia.
Qed.

(** ** The accesses of a call, in order *)

Section Accesses.
Context {M : Platform}.

Lemma transfer_loads f d dest src num :
  loads_of (transfer f d dest src num).2 = seqZ (pos src) (Z.of_nat num).
Proof.
  revert d dest src. induction num as [|num IH]; intros d dest src; [done|].
  cbn [transfer]. specialize (IH (store d dest (f (load src))) (dest + 1) (ptr_add src 1)).
  destruct (transfer f _ _ _ num) as [d' t]. simpl in *.
  rewrite IH, (seqZ_cons (pos src)) by lia. do 2 f_equal; lia.
Qed.

Lemma transfer_stores f d dest src num :
  stores_of (transfer f d dest src num).2 = seqZ dest (Z.of_nat num).
Proof.
  revert d dest src. induction num as [|num IH]; intros d dest src; [done|].
  cbn [transfer]. specialize (IH (store d dest (f (load src))) (dest + 1) (ptr_add src 1)).
  destruct (transfer f _ _ _ num) as [d' t]. simpl in *.
  rewrite IH, (seqZ_cons dest) by lia. do 2 f_equal; lia.
Qed.

(** The ring positions [(w + k) mod cap] for [k] in [0, bs), in the two
    pieces the copy makes of them. *)
Lemma ring_positions_split w bs cap :
  0 <= w < cap -> 0 <= bs <= cap -> cap <= w + bs ->
  (fun k => (w + k) `mod` cap) <$> seqZ 0 bs
    = seqZ w (cap - w) ++ seqZ 0 (bs - (cap - w)).
Proof.
  intros Hw Hbs Hsplit.
  replace bs with ((cap - w) + (bs - (cap - w))) at 1 by lia.
  rewrite seqZ_app, fmap_app by lia. f_equal.
  - replace (seqZ w (cap - w)) with (Z.add w <$> seqZ 0 (cap - w))
      by (rewrite fmap_add_seqZ; f_equal; lia).
    apply Forall_fmap_ext_1, Forall_seqZ. intros k Hk. apply Z.mod_small. lia.
  - replace (seqZ (0 + (cap - w)) (bs - (cap - w)))
      with (Z.add (cap - w) <$> seqZ 0 (bs - (cap - w)))
      by (rewrite fmap_add_seqZ; f_equal; lia).
    rewrite <- list_fmap_compose.
    rewrite <- (list_fmap_id (seqZ 0 (bs - (cap - w)))) at 2.
    apply Forall_fmap_ext_1, Forall_seqZ. intros k Hk. simpl.
    replace (w + (cap - w + k)) with (k + 1 * cap) by lia.
    rewrite Z.mod_add by lia. apply Z.mod_small. lia.
Qed.

Lemma ring_positions_fit w bs cap :
  0 <= w -> 0 <= bs -> w + bs <= cap ->
  (fun k => (w + k) `mod` cap) <$> seqZ 0 bs = seqZ w bs.
Proof.
  intros Hw Hbs Hfit.
  replace (seqZ w bs) with (Z.add w <$> seqZ 0 bs)
    by (rewrite fmap_add_seqZ; f_equal; lia).
  apply Forall_fmap_ext_1, Forall_seqZ. intros k Hk. apply Z.mod_small. lia.
Qed.

(** The stores of one channel's copy are at the ring positions of the block,
    in order. *)
Lemma write_samples_stores_exact w bs cap src d :
  0 <= w < cap -> 0 < bs <= cap -> cap <= Int.max_signed -> bs + w <= Int.max_signed ->
  stores_of (write_samples w bs cap src d).2 = (fun k => (w + k) `mod` cap) <$> seqZ 0 bs.
Proof.
  intros Hw Hbs Hcap Hsum.
  destruct (write_arith w bs cap) as (Ha & Hs1 & Hs2); try done.
  unfold write_samples, copyWithMultiply. rewrite Ha, Hs1, Hs2, Z.gtb_ltb.
  destruct (Z.ltb_spec (bs + w) cap) as [Hfit|Hsplit].
  - rewrite transfer_stores, Z2Nat.id, ring_positions_fit by lia. done.
  - pose proof (transfer_stores (fun x => fmul x F32.tenth) d w src
                  (Z.to_nat (cap - w))) as H1.
    destruct (transfer _ d _ _ _) as [d1 t1]. simpl in *.
    pose proof (transfer_stores (fun x => fmul x F32.tenth) d1 0
                  (ptr_sub src (cap - w)) (Z.to_nat (bs - (cap - w)))) as H2.
    destruct (transfer _ d1 _ _ _) as [d2 t2]. simpl in *.
    unfold stores_of in *. rewrite omap_app, H1, H2, !Z2Nat.id by lia.
    by rewrite ring_positions_split by lia.
Qed.

(** The loads of one channel's copy: the block from its start when it fits,
    otherwise its first [cap - w] samples and then [cap - w] samples back
    from its start. *)
Lemma write_samples_loads_exact w bs cap src d :
  0 <= w < cap -> 0 < bs <= cap -> cap <= Int.max_signed -> bs + w <= Int.max_signed ->
  loads_of (write_samples w bs cap src d).2
    = if decide (bs + w < cap) then seqZ (pos src) bs
      else seqZ (pos src) (cap - w) ++ seqZ (pos src - (cap - w)) (bs - (cap - w)).
Proof.
  intros Hw Hbs Hcap Hsum.
  destruct (write_arith w bs cap) as (Ha & Hs1 & Hs2); try done.
  unfold write_samples, copyWithMultiply. rewrite Ha, Hs1, Hs2, Z.gtb_ltb.
  destruct (Z.ltb_spec (bs + w) cap) as [Hfit|Hsplit].
  - rewrite decide_True by done. by rewrite transfer_loads, Z2Nat.id by lia.
  - rewrite decide_False by lia.
    pose proof (transfer_loads (fun x => fmul x F32.tenth) d w src
                  (Z.to_nat (cap - w))) as H1.
    destruct (transfer _ d _ _ _) as [d1 t1]. simpl in *.
    pose proof (transfer_loads (fun x => fmul x F32.tenth) d1 0
                  (ptr_sub src (cap - w)) (Z.to_nat (bs - (cap - w)))) as H2.
    destruct (transfer _ d1 _ _ _) as [d2 t2]. simpl in *.
    unfold loads_of in *. rewrite omap_app, H1, H2.
    destruct (decide (0 <= bs - (cap - w))) as [Hn|Hn].
    + by rewrite !Z2Nat.id by lia.
    + lia.
Qed.

Lemma channel_accesses_tagged (c c' : nat) (t : list access) :
  channel_accesses c ((fun a => (c', a)) <$> t) = if decide (c' = c) then t else [].
Proof.
  unfold channel_accesses. destruct (decide (c' = c)) as [Heq|Hne].
  - induction t as [|a t IH]; [done|].
    cbn [fmap list_fmap omap list_omap fst snd]. rewrite decide_True by done.
    by f_equal.
  - induction t as [|a t IH]; [done|].
    cbn [fmap list_fmap omap list_omap fst snd]. by rewrite decide_False by done.
Qed.

(** The accesses of channel [c] in the trace are those of the copy of
    channel [c], made on the samples the channel held. *)
Lemma channel_loop_accesses w bs cap buffer (len s : nat) acc (c : nat) :
  exists d,
    channel_accesses c (foldl (channel_step w bs cap buffer) acc (seq s len)).2
      = channel_accesses c acc.2 ++
        (if decide (s <= c < s + len)%nat
         then (write_samples w bs cap (getWritePointer buffer c) d).2 else []).
Proof.
  revert s acc. induction len as [|len IH]; intros s acc.
  - exists []. simpl. rewrite decide_False by lia. by rewrite app_nil_r.
  - simpl. destruct (IH (S s) (channel_step w bs cap buffer acc s)) as [d Hd].
    rewrite Hd. unfold channel_step at 1. rewrite write_channel_samples. cbv zeta. cbn [snd].
    unfold channel_accesses at 1. rewrite omap_app. fold (channel_accesses c acc.2).
    fold (channel_accesses c ((fun a => (s, a)) <$>
            (write_samples w bs cap (getWritePointer buffer s) (channels acc.1 !!! s)).2)).
    rewrite channel_accesses_tagged.
    destruct (decide (s = c)) as [->|Hne].
    + exists (channels acc.1 !!! c).
      rewrite decide_False by lia. rewrite decide_True by lia. by rewrite app_nil_r.
    + exists d. rewrite app_nil_r.
      destruct (decide (S s <= c < S s + len)%nat);
        [rewrite decide_True by lia | rewrite decide_False by lia]; done.
Qed.

Lemma processBlock_channel_accesses p buffer c :
  (c < totalNumInputChannels p)%nat ->
  exists d,
    channel_accesses c (trace (processBlock p buffer))
      = (write_samples (writePosition p) (size buffer) (size (delayBuffer p))
           (getWritePointer buffer c) d).2.
Proof.
  intros Hc. unfold processBlock.
  destruct (channel_loop_accesses (writePosition p)
    (getNumSamples (clear_extra_outputs (totalNumInputChannels p) (totalNumOutputChannels p) buffer))
    (getNumSamples (delayBuffer p))
    (clear_extra_outputs (totalNumInputChannels p) (totalNumOutputChannels p) buffer)
    (totalNumInputChannels p) 0 (delayBuffer p, []) c) as [d Hd].
  exists d. destruct (foldl _ _ _). simpl in *. rewrite Hd.
  rewrite decide_True by lia.
  unfold getNumSamples. by rewrite clear_extra_outputs_size, getWritePointer_cleared.
Qed.

Lemma elem_of_channel_loads (c : nat) (i : Z) (t : list (nat * access)) :
  i ∈ loads_of (channel_accesses c t) -> (c, Load i) ∈ t.
Proof.
  unfold loads_of, channel_accesses. intros Hi.
  apply list_elem_of_omap in Hi as (a & Ha & Hload).
  apply list_elem_of_omap in Ha as ([c' a'] & Hca & Hsel).
  simpl in Hsel. destruct (decide (c' = c)) as [->|]; [|done].
  injection Hsel as ->. destruct a as [k|k]; [|done]. by injection Hload as ->.
Qed.

End Accesses.

(** The stores of a call wrap around the ring as they should: for every
    input channel they are, in order and each once, the ring positions
    [(writePosition + k) mod capacity] for [k = 0 .. blockSize - 1]. *)
Theorem stores_are_ring_positions {M : Platform} (p : Processor) (buffer : AudioBuffer)
    (c : nat) :
  (c < totalNumInputChannels p)%nat ->
  0 <= writePosition p < size (delayBuffer p) ->
  0 < size buffer <= size (delayBuffer p) ->
  size (delayBuffer p) <= Int.max_signed ->
  size buffer + writePosition p <= Int.max_signed ->
  stores_of (channel_accesses c (trace (processBlock p buffer)))
    = (fun k => (writePosition p + k) `mod` size (delayBuffer p)) <$> seqZ 0 (size buffer).
Proof.
  intros Hc Hw Hbs Hcap Hsum.
  destruct (processBlock_channel_accesses p buffer c Hc) as [d ->].
  by apply write_samples_stores_exact.
Qed.

(** The loads of a call stay inside the host block exactly when the block
    ends at or before the end of the ring.  When it does not, the second
    copy starts [capacity - writePosition] samples before the block. *)
Theorem loads_in_block_iff_no_wrap {M : Platform} (p : Processor) (buffer : AudioBuffer) :
  (0 < totalNumInputChannels p)%nat ->
  0 <= writePosition p < size (delayBuffer p) ->
  0 < size buffer <= size (delayBuffer p) ->
  size (delayBuffer p) <= Int.max_signed ->
  size buffer + writePosition p <= Int.max_signed ->
  (Forall (fun ca => loads_within 0 (size buffer) ca.2) (trace (processBlock p buffer))
   <-> writePosition p + size buffer <= size (delayBuffer p)) /\
  (size (delayBuffer p) < writePosition p + size buffer ->
   (0%nat, Load (- (size (delayBuffer p) - writePosition p))) ∈ trace (processBlock p buffer)).
Proof.
  intros Hc Hw Hbs Hcap Hsum.
  assert (size (delayBuffer p) < writePosition p + size buffer ->
          (0%nat, Load (- (size (delayBuffer p) - writePosition p)))
            ∈ trace (processBlock p buffer)) as Hstray.
  { intros Hsplit. apply elem_of_channel_loads.
    destruct (processBlock_channel_accesses p buffer 0%nat Hc) as [d ->].
    rewrite write_samples_loads_exact, decide_False by lia.
    apply elem_of_app. right. apply elem_of_seqZ. simpl. lia. }
  split; [|exact Hstray]. split.
  - intros Hall.
    destruct (decide (writePosition p + size buffer <= size (delayBuffer p))) as [|Hsplit];
      [done|].
    rewrite Forall_forall in Hall.
    specialize (Hall _ (Hstray ltac:(lia))). simpl in Hall. lia.
  - intros Hfit. apply processBlock_loads_in_block; lia.
Qed.

(** What the second copy of the split path leaves in the ring: position
    [j], for [j < writePosition + blockSize - capacity], receives 0.1f times
    what the host memory holds [j - (capacity - writePosition)] samples from
    the first sample of the block, not the sample of the block that falls on
    that position. *)
Theorem split_copy_stores_shifted_samples {M : Platform} (p : Processor)
    (buffer : AudioBuffer) (c : nat) (d : list float) (j : nat) :
  wf_buffer (delayBuffer p) ->
  (c < totalNumInputChannels p)%nat ->
  channels (delayBuffer p) !! c = Some d ->
  0 <= writePosition p < size (delayBuffer p) ->
  0 < size buffer <= size (delayBuffer p) ->
  size buffer + writePosition p <= Int.max_signed ->
  Z.of_nat j < writePosition p + size buffer - size (delayBuffer p) ->
  sample (delayBuffer (processor (processBlock p buffer))) c j
    = Some (fmul (channel_memory buffer c
                    (Z.of_nat j - (size (delayBuffer p) - writePosition p))) F32.tenth).
Proof.
  intros [Hcap Hwfd] Hc Hd Hw Hbs Hsum Hj.
  rewrite Forall_lookup in Hwfd. pose proof (Hwfd _ _ Hd) as Hdlen.
  unfold sample. rewrite processBlock_delay_channel, Hd by done. simpl.
  destruct (write_arith (writePosition p) (size buffer) (size (delayBuffer p)))
    as (Ha & Hs1 & Hs2); try lia.
  unfold write_samples, copyWithMultiply. rewrite Ha, Hs1, Hs2, Z.gtb_ltb.
  destruct (Z.ltb_spec (size buffer + writePosition p) (size (delayBuffer p))); [lia|].
  pose proof (transfer_length (fun x => fmul x F32.tenth) d (writePosition p)
                (getWritePointer buffer c)
                (Z.to_nat (size (delayBuffer p) - writePosition p))) as Hlen1.
  destruct (transfer _ d _ _ _) as [d1 t1]. simpl in *.
  pose proof (transfer_lookup (fun x => fmul x F32.tenth) d1 0
                (ptr_sub (getWritePointer buffer c) (size (delayBuffer p) - writePosition p))
                (Z.to_nat (size buffer - (size (delayBuffer p) - writePosition p))) j) as H2.
  destruct (transfer _ d1 _ _ _) as [d2 t2]. simpl in *.
  rewrite H2, decide_True by lia.
  destruct (lookup_lt_is_Some_2 d1 j) as [y ->]; [lia|]. simpl. do 3 f_equal. lia.
Qed.

(** ** prepareToPlay, again *)

Lemma setSize_numChannels {M : Platform} b newNumChannels newNumSamples :
  getNumChannels (setSize b newNumChannels newNumSamples) = newNumChannels.
Proof.
  unfold setSize. case_bool_decide as Hd.
  - unfold getNumChannels. simpl. by rewrite length_fmap, length_seq.
  - destruct (decide (newNumChannels = getNumChannels b)); [done|].
    exfalso. apply Hd. by right.
Qed.

Lemma setSize_same {M : Platform} b newNumChannels newNumSamples :
  size b = newNumSamples -> getNumChannels b = newNumChannels ->
  setSize b newNumChannels newNumSamples = b.
Proof.
  intros Hs Hc. unfold setSize. case_bool_decide as Hd; [|done].
  destruct Hd as [Hd|Hd]; congruence.
Qed.

(** A repeated [prepareToPlay] at the same sample rate changes nothing, also
    when blocks have been processed in between: the delay buffer keeps its
    samples and the write position stays where it is. *)
Theorem prepareToPlay_again_keeps_state {M : Platform} (p : Processor)
    (sampleRate : double) (samplesPerBlock samplesPerBlock' : Z) (blocks : list AudioBuffer) :
  let q := (process_stream (prepareToPlay p sampleRate samplesPerBlock) blocks).1.1 in
  prepareToPlay q sampleRate samplesPerBlock' = q.
Proof.
  intros q.
  assert (forall blocks r,
            size (delayBuffer r) = F64.to_int (F64.mul sampleRate F64.two) ->
            getNumChannels (delayBuffer r) = totalNumOutputChannels r ->
            let r' := (process_stream r blocks).1.1 in
            size (delayBuffer r') = F64.to_int (F64.mul sampleRate F64.two) /\
            getNumChannels (delayBuffer r') = totalNumOutputChannels r') as Hinv.
  { clear. induction blocks as [|b blocks IH]; intros r Hs Hc; [done|].
    cbv zeta. rewrite process_stream_cons. apply IH.
    - by rewrite processBlock_capacity.
    - unfold getNumChannels. rewrite processBlock_delay_channels_length.
      by rewrite (proj2 (processBlock_channel_counts r b)). }
  destruct (Hinv blocks (prepareToPlay p sampleRate samplesPerBlock)) as [Hs Hc].
  - unfold prepareToPlay. simpl. apply setSize_size.
  - unfold prepareToPlay. simpl. apply setSize_numChannels.
  - fold q in Hs, Hc. unfold prepareToPlay. rewrite setSize_same by done. by destruct q.
Qed.

(** ** Bus layouts *)

Lemma isBusesLayoutSupported_effect (layouts : BusesLayout) :
  isBusesLayoutSupported false false layouts = true <->
    getMainInputChannelSet layouts = getMainOutputChannelSet layouts /\
    (getMainOutputChannelSet layouts = AudioChannelSet.mono \/
     getMainOutputChannelSet layouts = AudioChannelSet.stereo).
Proof.
  unfold isBusesLayoutSupported. simpl.
  destruct (N.eqb_spec (getMainOutputChannelSet layouts) AudioChannelSet.mono) as [Hm|Hm];
  destruct (N.eqb_spec (getMainOutputChannelSet layouts) AudioChannelSet.stereo) as [Hs|Hs];
  destruct (N.eqb_spec (getMainOutputChannelSet layouts) (getMainInputChannelSet layouts))
    as [Hio|Hio]; simpl; split; try done; try (intros [? [?|?]]; congruence); auto.
Qed.

(** Which layouts the processor accepts.  As an effect (neither MIDI effect
    nor synth) it accepts a layout exactly when the main input set and the
    main output set are the same and are mono or stereo, so a layout
    without an input bus or without an output bus is refused.  As a synth
    only the main output set counts; as a MIDI effect every layout is
    accepted. *)
Theorem isBusesLayoutSupported_spec (layouts : BusesLayout) :
  (isBusesLayoutSupported false false layouts = true <->
     getMainInputChannelSet layouts = getMainOutputChannelSet layouts /\
     (getMainOutputChannelSet layouts = AudioChannelSet.mono \/
      getMainOutputChannelSet layouts = AudioChannelSet.stereo)) /\
  (isBusesLayoutSupported false true layouts = true <->
     getMainOutputChannelSet layouts = AudioChannelSet.mono \/
     getMainOutputChannelSet layouts = AudioChannelSet.stereo) /\
  (forall isSynth, isBusesLayoutSupported true isSynth layouts = true) /\
  (inputBuses layouts = [] \/ outputBuses layouts = [] ->
     isBusesLayoutSupported false false layouts = false).
Proof.
  split; [apply isBusesLayoutSupported_effect|]. split; [|split].
  - unfold isBusesLayoutSupported. simpl.
    destruct (N.eqb_spec (getMainOutputChannelSet layouts) AudioChannelSet.mono) as [Hm|Hm];
    destruct (N.eqb_spec (getMainOutputChannelSet layouts) AudioChannelSet.stereo) as [Hs|Hs];
      simpl; split; try done; try (intros [?|?]; congruence); auto.
  - done.
  - intros Hempty. apply not_true_is_false. rewrite isBusesLayoutSupported_effect.
    intros [Hio Hout].
    unfold getMainInputChannelSet, getMainOutputChannelSet, getChannelSet in *.
    destruct Hempty as [He|He]; rewrite He in *; simpl in *;
      destruct Hout as [Hout|Hout]; rewrite Hout in *; done.
Qed.

(** On every layout of one input bus and one output bus that the effect
    accepts, the processor has as many input as output channels, one or
    two, and [processBlock] hands the host buffer back as it received it:
    there is no output channel left over to clear. *)
Theorem supported_layout_passes_buffer {M : Platform} (layouts : BusesLayout)
    (i o : AudioChannelSet.t) (p : Processor) (buffer : AudioBuffer) :
  inputBuses layouts = [i] -> outputBuses layouts = [o] ->
  isBusesLayoutSupported false false layouts = true ->
  totalNumInputChannels p = total_channels (inputBuses layouts) ->
  totalNumOutputChannels p = total_channels (outputBuses layouts) ->
  totalNumInputChannels p = totalNumOutputChannels p /\
  (totalNumInputChannels p = 1%nat \/ totalNumInputChannels p = 2%nat) /\
  output (processBlock p buffer) = buffer.
Proof.
  intros Hi Ho Hsup Hin Hout.
  apply (proj1 (isBusesLayoutSupported_effect layouts)) in Hsup as [Hio Hset].
  unfold getMainInputChannelSet, getMainOutputChannelSet, getChannelSet in *.
  rewrite Hi, Ho in *. simpl in *. subst o.
  assert (totalNumInputChannels p = totalNumOutputChannels p) as Heq by congruence.
  split; [exact Heq|]. split.
  - rewrite Hin. destruct Hset as [->| ->]; [by left | by right].
  - rewrite processBlock_output, Heq. unfold clear_extra_outputs.
    by rewrite Nat.sub_diag.
Qed.

(** ** Block lengths that divide the capacity *)

(** When every block has the same length, that length divides the capacity
    and the write position is a multiple of it, no block is ever split:
    before every call of the stream the block ends at or before the end of
    the ring, so every call of the stream takes the single copy. *)
Theorem dividing_blocks_never_split {M : Platform} (p : Processor)
    (blocks : list AudioBuffer) (bs : Z) :
  0 < bs ->
  0 < size (delayBuffer p) <= 2 ^ 30 ->
  (bs | size (delayBuffer p)) ->
  (bs | writePosition p) ->
  0 <= writePosition p < size (delayBuffer p) ->
  Forall (fun b => size b = bs) blocks ->
  Forall (fun q => 0 <= writePosition q /\
                   writePosition q + bs <= size (delayBuffer q) /\
                   (bs | writePosition q))
    (p :: (process_stream p blocks).1.2).
Proof.
  intros Hbs Hcap Hdc. revert p Hcap Hdc.
  assert (forall w cap, (bs | cap) -> (bs | w) -> 0 <= w < cap -> w + bs <= cap) as Hroom.
  { intros w cap [m ->] [a ->] Hw.
    assert (a < m) as Ham by (apply (Z.mul_lt_mono_pos_r bs); lia).
    pose proof (Z.mul_le_mono_nonneg_r (a + 1) m bs) as Hle. lia. }
  induction blocks as [|b blocks IH]; intros p Hcap Hdc Hdw Hw Hblocks.
  - simpl. repeat constructor; try lia; auto.
  - apply Forall_cons in Hblocks as [Hb Hblocks].
    pose proof (Hroom _ _ Hdc Hdw Hw) as Hfit.
    assert (writePosition (processor (processBlock p b))
              = (writePosition p + bs) `mod` size (delayBuffer p)) as Hstep.
    { rewrite writePosition_step, Hb; try done; try lia.
      unfold Int.max_signed. lia. }
    pose proof (processBlock_capacity p b) as Hsame.
    specialize (IH (processor (processBlock p b))).
    rewrite Hsame in IH.
    assert ((bs | (writePosition p + bs) `mod` size (delayBuffer p))) as Hdiv.
    { destruct (decide (writePosition p + bs = size (delayBuffer p))) as [Heq|Hne].
      - rewrite Heq, Z_mod_same_full. apply Z.divide_0_r.
      - rewrite Z.mod_small by lia. apply Z.divide_add_r; [done | apply Z.divide_refl]. }
    pose proof (Z.mod_pos_bound (writePosition p + bs) (size (delayBuffer p))) as Hrange.
    simpl. destruct (process_stream _ blocks) as [[q states] outs]. simpl in *.
    constructor; [auto with lia|].
    apply IH; try done; rewrite ?Hstep; try done; lia.
Qed.

(** * More concrete runs *)

Lemma processBlock_empty_block_witness :
  let p := mkProcessor 1 2 (mkAudioBuffer 4 [F32.of_int <$> [1; 2; 3; 4]]) 3 in
  let buffer := mkAudioBuffer 0 [[]; []] in
  processor (processBlock (M:=ieee) p buffer) = p /\
  output (processBlock (M:=ieee) p buffer) = buffer /\
  trace (processBlock (M:=ieee) p buffer) = [].
Proof.
  intros p buffer. apply (processBlock_empty_block (M:=ieee) p buffer).
  - reflexivity.
  - simpl. lia.
  - vm_compute. discriminate.
Defined.



Lemma processBlock_keeps_delay_buffer_shape_witness :
  let p := mkProcessor 1 1 (mkAudioBuffer 4 [replicate 4 F32.zero]) 3 in
  let q := processor (processBlock (M:=ieee) p (mkAudioBuffer 3 [replicate 3 F32.one])) in
  wf_buffer (delayBuffer q) /\ size (delayBuffer q) = 4 /\
  getNumChannels (delayBuffer q) = 1%nat.
Proof.
  intros p q.
  apply (processBlock_keeps_delay_buffer_shape (M:=ieee) p (mkAudioBuffer 3 [replicate 3 F32.one])).
  split; [vm_compute; split; discriminate | repeat constructor].
Defined.

Lemma writePosition_counts_samples_witness :
  let p := mkProcessor 1 1 (mkAudioBuffer 8 [replicate 8 F32.zero]) 6 in
  let block n := mkAudioBuffer (Z.of_nat n) [replicate n F32.one] in
  writePosition (process_stream (M:=ieee) p [block 4%nat; block 8%nat; block 3%nat]).1.1
    = (6 + 15) `mod` 8.
Proof.
  intros p block.
  apply (writePosition_counts_samples (M:=ieee) p [block 4%nat; block 8%nat; block 3%nat]).
  - simpl. lia.
  - simpl. lia.
  - repeat constructor; simpl; lia.
Defined.

Lemma ring_holds_stream_witness :
  let p := mkProcessor 1 1 (mkAudioBuffer 8 [replicate 8 F32.zero]) 2 in
  let blocks := [mkAudioBuffer 1 [F32.of_int <$> [1]]; mkAudioBuffer 3 [F32.of_int <$> [2; 3; 4]];
                 mkAudioBuffer 2 [F32.of_int <$> [5; 6]]] in
  exists d' : list float,
    channels (delayBuffer (process_stream (M:=ieee) p blocks).1.1) !! 0%nat = Some d' /\
    d' !! 6%nat = Some (fmul (Platform:=ieee) (F32.of_int 5) F32.tenth) /\
    d' !! 1%nat = Some F32.zero.
Proof.
  intros p blocks.
  destruct (ring_holds_stream (M:=ieee) p blocks 0 (replicate 8 F32.zero))
    as (d' & Hd' & Hstored & Hkept).
  - split; [vm_compute; split; discriminate | repeat constructor].
  - simpl. lia.
  - reflexivity.
  - repeat constructor; try (vm_compute; discriminate); try (simpl; lia); by eexists.
  - simpl. lia.
  - vm_compute. discriminate.
  - exists d'. split; [exact Hd'|]. split.
    + apply (Hstored 4%nat (F32.of_int 5)). reflexivity.
    + rewrite (Hkept 1%nat); [reflexivity | simpl; lia].
Defined.

Lemma stores_are_ring_positions_witness :
  let p := mkProcessor 1 1 (mkAudioBuffer 8 [replicate 8 F32.zero]) 6 in
  let buffer := mkAudioBuffer 4 [F32.of_int <$> [1; 2; 3; 4]] in
  stores_of (channel_accesses 0 (trace (processBlock (M:=ieee) p buffer))) = [6; 7; 0; 1].
Proof.
  intros p buffer.
  rewrite (stores_are_ring_positions (M:=ieee) p buffer 0).
  - reflexivity.
  - simpl. lia.
  - simpl. lia.
  - simpl. lia.
  - vm_compute. discriminate.
  - vm_compute. discriminate.
Defined.

Lemma loads_in_block_iff_no_wrap_witness :
  let p := mkProcessor 1 1 (mkAudioBuffer 8 [replicate 8 F32.zero]) 6 in
  let fits := mkAudioBuffer 2 [F32.of_int <$> [1; 2]] in
  let wraps := mkAudioBuffer 4 [F32.of_int <$> [1; 2; 3; 4]] in
  Forall (fun ca => loads_within 0 2 ca.2) (trace (processBlock (M:=ieee) p fits)) /\
  (0%nat, Load (-2)) ∈ trace (processBlock (M:=ieee) p wraps).
Proof.
  intros p fits wraps. split.
  - apply (proj1 (loads_in_block_iff_no_wrap (M:=ieee) p fits
                    ltac:(simpl; lia) ltac:(simpl; lia) ltac:(simpl; lia)
                    ltac:(vm_compute; discriminate) ltac:(vm_compute; discriminate))).
    simpl. lia.
  - apply (proj2 (loads_in_block_iff_no_wrap (M:=ieee) p wraps
                    ltac:(simpl; lia) ltac:(simpl; lia) ltac:(simpl; lia)
                    ltac:(vm_compute; discriminate) ltac:(vm_compute; discriminate))).
    simpl. lia.
Defined.

Lemma split_copy_stores_shifted_samples_witness :
  let p := mkProcessor 1 1 (mkAudioBuffer 4 [replicate 4 F32.zero]) 3 in
  let buffer := mkAudioBuffer 3 [F32.of_int <$> [1; 2; 3]] in
  sample (delayBuffer (processor (processBlock (M:=ieee) p buffer))) 0 1
    = Some (fmul (Platform:=ieee) (F32.of_int 1) F32.tenth).
Proof.
  intros p buffer.
  apply (split_copy_stores_shifted_samples (M:=ieee) p buffer 0 (replicate 4 F32.zero) 1).
  - split; [vm_compute; split; discriminate | repeat constructor].
  - simpl. lia.
  - reflexivity.
  - simpl. lia.
  - simpl. lia.
  - vm_compute. discriminate.
  - simpl. lia.
Defined.

Lemma isBusesLayoutSupported_spec_witness :
  isBusesLayoutSupported false false default_layout = true /\
  isBusesLayoutSupported false false
    (mkBusesLayout [AudioChannelSet.mono] [AudioChannelSet.stereo]) = false /\
  isBusesLayoutSupported false true
    (mkBusesLayout [] [AudioChannelSet.mono]) = true /\
  isBusesLayoutSupported false false (mkBusesLayout [] [AudioChannelSet.mono]) = false.
Proof.
  split; [|split; [|split]].
  - apply (proj1 (isBusesLayoutSupported_spec default_layout)).
    split; [reflexivity | right; reflexivity].
  - apply not_true_is_false. intros Hsup.
    apply (proj1 (isBusesLayoutSupported_spec
                    (mkBusesLayout [AudioChannelSet.mono] [AudioChannelSet.stereo]))) in Hsup.
    destruct Hsup as [Hio _]. vm_compute in Hio. discriminate.
  - apply (proj1 (proj2 (isBusesLayoutSupported_spec (mkBusesLayout [] [AudioChannelSet.mono])))).
    left. reflexivity.
  - apply (proj2 (proj2 (proj2 (isBusesLayoutSupported_spec
                                   (mkBusesLayout [] [AudioChannelSet.mono]))))).
    left. reflexivity.
Defined.

Lemma supported_layout_passes_buffer_witness :
  let p := mkProcessor 2 2 (mkAudioBuffer 4 [replicate 4 F32.zero; replicate 4 F32.zero]) 0 in
  let buffer := mkAudioBuffer 2 [F32.of_int <$> [1; 2]; F32.of_int <$> [3; 4]] in
  totalNumInputChannels p = totalNumOutputChannels p /\
  (totalNumInputChannels p = 1%nat \/ totalNumInputChannels p = 2%nat) /\
  output (processBlock (M:=ieee) p buffer) = buffer.
Proof.
  intros p buffer.
  apply (supported_layout_passes_buffer (M:=ieee) default_layout
           AudioChannelSet.stereo AudioChannelSet.stereo p buffer); reflexivity.
Defined.

Lemma dividing_blocks_never_split_witness :
  let p := mkProcessor 1 1 (mkAudioBuffer 6 [replicate 6 F32.zero]) 4 in
  let block := mkAudioBuffer 2 [[F32.one; F32.one]] in
  Forall (fun q => 0 <= writePosition q /\ writePosition q + 2 <= size (delayBuffer q) /\
                   (2 | writePosition q))
    (p :: (process_stream (M:=ieee) p [block; block; block; block]).1.2).
Proof.
  intros p block.
  apply (dividing_blocks_never_split (M:=ieee) p [block; block; block; block] 2).
  - lia.
  - simpl. lia.
  - exists 3. reflexivity.
  - exists 2. reflexivity.
  - simpl. lia.
  - repeat constructor.
Defined.
